(** * Shutdown: ordered and concurrent closing of registered resources

    A shallow embedding of the Go package [shutdown]
    (strategies [Fifo], [Lifo] and [Group], the context association
    [ClosureToContext] / [ClosureFromContext], and the package-level
    registry guarded by [sync.Once]) together with the part of
    [go.uber.org/multierr] and of [context] the package relies on. *)

From Stdlib Require Import List String Ascii Arith Lia Bool Permutation.
Import ListNotations.
Open Scope string_scope.
Open Scope list_scope.

(** ** Errors and [go.uber.org/multierr] *)

(** A non-nil Go error that is not a [*multiError]: a leaf. *)
Inductive base_error : Type :=
| errorString (s : string)        (* errors.New(s) *)
| Canceled                        (* context.Canceled *)
| DeadlineExceeded.               (* context.DeadlineExceeded *)

(** A non-nil Go error: a leaf, or multierr's flat [multiError{errors}]. *)
Inductive errval : Type :=
| Base (b : base_error)
| multiError (errors : list base_error).

(** Go's [error] interface value; [None] is [nil]. *)
Definition error : Type := option errval.

Definition base_Error (b : base_error) : string :=
  match b with
  | errorString s => s
  | Canceled => "context canceled"
  | DeadlineExceeded => "context deadline exceeded"
  end.

(** multierr's single-line rendering: constituents joined by "; ". *)
Definition errval_Error (e : errval) : string :=
  match e with
  | Base b => base_Error b
  | multiError errors => String.concat "; " (map base_Error errors)
  end.

(** [err.Error()] of a non-nil error; a nil error has no text, modelled
    as the empty string. *)
Definition Error (e : error) : string :=
  match e with
  | None => ""
  | Some v => errval_Error v
  end.

(** [multierr.Errors]: the constituents of an error. *)
Definition errval_Errors (e : errval) : list base_error :=
  match e with
  | Base b => [b]
  | multiError errors => errors
  end.

Definition Errors (e : error) : list base_error :=
  match e with
  | None => []
  | Some v => errval_Errors v
  end.

Module multierr.

(** [multierr.Append(left, right)]: nil is neutral; two non-nil errors
    give a [multiError] whose list is the constituents of the left
    followed by those of the right (a [multiError] argument is
    flattened). *)
Definition Append (left right : error) : error :=
  match left, right with
  | None, _ => right
  | _, None => left
  | Some l, Some r => Some (multiError (errval_Errors l ++ errval_Errors r))
  end.

(** [fromSlice] after the nil entries have been counted: no non-nil
    entry gives nil, exactly one gives that entry itself, more give a
    flattened [multiError]. *)
Definition fromSlice (errors : list error) : error :=
  match errors with
  | [] => None
  | [e] => e
  | _ =>
      match flat_map (fun e => match e with None => [] | Some v => [v] end) errors with
      | [] => None
      | [v] => Some v
      | vs => Some (multiError (flat_map errval_Errors vs))
      end
  end.

(** [multierr.Combine(errs...)]. *)
Definition Combine (errors : list error) : error := fromSlice errors.

End multierr.

(** [m] occurs in [s] as a contiguous substring. *)
Definition contains (s m : string) : Prop :=
  exists pre post, s = (pre ++ m ++ post)%string.

(** ** Closers and the cancellation signal *)

(** A registered resource ([io.Closer]).  [Close] is the outcome its
    close operation reports for the registration, the operation being
    one that returns; [ident] tells resources apart. *)
Record Closer : Type := mkCloser { ident : nat; Close : error }.

(** The part of [context.Context] the close operations use:
    [Background] has a nil [Done] channel, so it never fires; the other
    contexts close [Done] at some moment and from then on report [err]
    from [Err()]. *)
Inductive Context : Type :=
| Background
| Cancellable (err : base_error)   (* [Done] closes after the call began, or never *)
| Fired (err : base_error).        (* [Done] was closed before the call began *)

(** Whether [ctx.Done()] is a channel that can become ready. *)
Definition Done (ctx : Context) : bool :=
  match ctx with
  | Background => false
  | Cancellable _ | Fired _ => true
  end.

(** [ctx.Err()] once [Done] is closed. *)
Definition Err (ctx : Context) : error :=
  match ctx with
  | Background => None
  | Cancellable e | Fired e => Some (Base e)
  end.

(** How far the goroutine spawned for an entry got when the select of
    its iteration took the [ctx.Done()] case. *)
Inductive progress : Type :=
| NotStarted      (* spawned, [Close] not yet called *)
| Closing         (* [Close] called, its outcome not yet stored *)
| Recorded.       (* [callClose] returned: [errs] holds the outcome *)

(** Which case the select of one iteration takes.  A select that finds
    several cases ready picks one of them at random, so [caseNext] is
    possible whenever the goroutine has closed [next] by the time the
    select is evaluated, also when [Done] is closed as well. *)
Inductive race : Type :=
| caseNext
| caseDone (p : progress).

(** The scheduler's decisions, one per registration index. *)
Definition schedule : Type := nat -> race.

(** The select statement of the walk: a nil [Done] channel is never
    ready, so the select blocks until [next] is closed. *)
Definition select (ctx : Context) (r : race) : race :=
  if Done ctx then r else caseNext.

(** The state the walk threads: the local [errs], the registration
    indices whose goroutine was spawned, and those whose [Close] was
    called before the call returned. *)
Record walk : Type := mkWalk {
  errs : error;
  dispatched : list nat;
  invoked : list nat
}.

Definition walk0 : walk := mkWalk None [] [].

(** [callClose(closer, &errs)]. *)
Definition callClose (closer : Closer) (errs : error) : error :=
  match Close closer with
  | Some err => multierr.Append errs (Some err)
  | None => errs
  end.

(** The [go func() { ... }()] statement for entry [i]. *)
Definition spawn (i : nat) (w : walk) : walk :=
  mkWalk (errs w) (dispatched w ++ [i]) (invoked w).

(** The goroutine of entry [i] run to completion. *)
Definition finish (i : nat) (closer : Closer) (w : walk) : walk :=
  mkWalk (callClose closer (errs w)) (dispatched w) (invoked w ++ [i]).

(** The goroutine of entry [i] as far as it got when [Done] won. *)
Definition partial (p : progress) (i : nat) (closer : Closer) (w : walk) : walk :=
  match p with
  | NotStarted => w
  | Closing => mkWalk (errs w) (dispatched w) (invoked w ++ [i])
  | Recorded => finish i closer w
  end.

(** One iteration of either walk: spawn, select, and either return
    [multierr.Append(errs, ctx.Err())] ([inl]) or go on ([inr]). *)
Definition iteration (ctx : Context) (sched : schedule) (i : nat) (closer : Closer)
    (w : walk) : (error * walk) + walk :=
  let w1 := spawn i w in
  match select ctx (sched i) with
  | caseDone p =>
      let w2 := partial p i closer w1 in
      inl (multierr.Append (errs w2) (Err ctx), w2)
  | caseNext => inr (finish i closer w1)
  end.

(** ** Fifo *)

Record Fifo : Type := mkFifo { queue : list Closer }.

Module Fifo.

Definition Append (f : Fifo) (closer : Closer) : Fifo :=
  mkFifo (queue f ++ [closer]).

(** [for _, closer := range f.queue], from index [i] on. *)
Fixpoint loop (ctx : Context) (sched : schedule) (i : nat) (q : list Closer)
    (w : walk) : error * walk :=
  match q with
  | [] => (errs w, w)
  | closer :: rest =>
      match iteration ctx sched i closer w with
      | inl r => r
      | inr w' => loop ctx sched (S i) rest w'
      end
  end.

Definition CloseContext (f : Fifo) (ctx : Context) (sched : schedule) : error * walk :=
  loop ctx sched 0 (queue f) walk0.

Definition Close (f : Fifo) (sched : schedule) : error * walk :=
  CloseContext f Background sched.

End Fifo.

(** ** Lifo *)

Record Lifo : Type := mkLifo { stack : list Closer }.

Module Lifo.

Definition Append (l : Lifo) (closer : Closer) : Lifo :=
  mkLifo (stack l ++ [closer]).

(** [for i := len(l.stack) - 1; i >= 0; i--], with [n = i + 1].  The
    index is always in range; out of range Go panics, modelled as
    returning at once. *)
Fixpoint loop (ctx : Context) (sched : schedule) (s : list Closer) (n : nat)
    (w : walk) : error * walk :=
  match n with
  | 0 => (errs w, w)
  | S i =>
      match nth_error s i with
      | None => (errs w, w)
      | Some closer =>
          match iteration ctx sched i closer w with
          | inl r => r
          | inr w' => loop ctx sched s i w'
          end
      end
  end.

Definition CloseContext (l : Lifo) (ctx : Context) (sched : schedule) : error * walk :=
  loop ctx sched (stack l) (List.length (stack l)) walk0.

Definition Close (l : Lifo) (sched : schedule) : error * walk :=
  CloseContext l Background sched.

End Lifo.

(** ** Group *)

Record Group : Type := mkGroup { closers : list Closer }.

Module Group.

Definition Append (g : Group) (closer : Closer) : Group :=
  mkGroup (closers g ++ [closer]).

(** What happens between the spawning of the goroutines and the
    return of the call, one unit of work per registration index. *)
Inductive event : Type :=
| Finish (i : nat)     (* inner goroutine: [Close] returned, a failure
                          was appended to [errs] under [mx], [done] closed *)
| Fire                 (* [ctx.Done()] is closed *)
| Resolve (i : nat).   (* outer goroutine: its select returned, [wg.Done()] *)

Record state : Type := mkState {
  spawned : list nat;      (* goroutines started by the for loop *)
  finished : list nat;     (* inner goroutines done, in completion order *)
  errs : list error;       (* the shared slice [errs] *)
  fired : bool;            (* [ctx.Done()] closed *)
  resolved : list nat      (* wait legs resolved, i.e. [wg.Done()] calls *)
}.

Definition mem (i : nat) (l : list nat) : bool := existsb (Nat.eqb i) l.

Definition init (g : Group) (ctx : Context) : state :=
  mkState (seq 0 (List.length (closers g))) [] []
          (match ctx with Fired _ => true | _ => false end) [].

(** [if err := c.Close(); err != nil { errs = append(errs, err) }]. *)
Definition record (c : Closer) (errs : list error) : list error :=
  match Close c with
  | Some err => errs ++ [Some err]
  | None => errs
  end.

(** One event; [None] when the event cannot happen in that state. *)
Definition step (g : Group) (ctx : Context) (s : state) (e : event) : option state :=
  match e with
  | Finish i =>
      match nth_error (closers g) i with
      | Some c =>
          if mem i (finished s) then None
          else Some (mkState (spawned s) (finished s ++ [i]) (record c (errs s))
                             (fired s) (resolved s))
      | None => None
      end
  | Fire =>
      if Done ctx && negb (fired s)
      then Some (mkState (spawned s) (finished s) (errs s) true (resolved s))
      else None
  | Resolve i =>
      if mem i (spawned s) && negb (mem i (resolved s))
         && (fired s || mem i (finished s))
      then Some (mkState (spawned s) (finished s) (errs s) (fired s) (resolved s ++ [i]))
      else None
  end.

Fixpoint run (g : Group) (ctx : Context) (evs : list event) (s : state) : option state :=
  match evs with
  | [] => Some s
  | e :: evs' =>
      match step g ctx s e with
      | Some s' => run g ctx evs' s'
      | None => None
      end
  end.

(** [wg.Wait()] returns once every spawned goroutine called [wg.Done()]. *)
Definition waited (s : state) : bool :=
  forallb (fun i => mem i (resolved s)) (spawned s).

(** The call under the schedule [evs], the events that happen before
    it returns: [None] when [evs] is not an execution or leaves
    [wg.Wait()] blocked. *)
Definition CloseContext (g : Group) (ctx : Context) (evs : list event)
    : option (error * state) :=
  match run g ctx evs (init g ctx) with
  | Some s => if waited s then Some (multierr.Combine (errs s), s) else None
  | None => None
  end.

Definition Close (g : Group) (evs : list event) : option (error * state) :=
  CloseContext g Background evs.

End Group.

(** ** Context association *)

Module context.

(** Context keys: the private [ctxKey{}] of this package, and the
    keys of other packages, which are of other types and never equal
    to it. *)
Inductive key : Type :=
| ctxKey
| otherKey (n : nat).

Definition key_eqb (a b : key) : bool :=
  match a, b with
  | ctxKey, ctxKey => true
  | otherKey n, otherKey m => Nat.eqb n m
  | _, _ => false
  end.

(** Values of type [any] as far as the type assertion [.(Closure)]
    tells them apart.  A strategy instance is the pointer [p] to it. *)
Inductive any : Type :=
| nilAny                   (* the nil interface *)
| closureAny (p : nat)     (* a non-nil [Closure] *)
| otherAny (n : nat).      (* a value that is not a [Closure] *)

(** Context objects; a context is the address of one. *)
Inductive node : Type :=
| backgroundCtx
| valueCtx (parent : nat) (k : key) (val : any)
| cancelCtx (parent : nat).   (* WithCancel, WithDeadline, WithTimeout *)

(** The store of context objects: address [c] is position [c]. *)
Definition heap : Type := list node.

(** Allocation of a new object. *)
Definition alloc (h : heap) (n : node) : heap * nat := (h ++ [n], List.length h).

Definition WithValue (h : heap) (parent : nat) (k : key) (val : any) : heap * nat :=
  alloc h (valueCtx parent k val).

Definition WithCancel (h : heap) (parent : nat) : heap * nat :=
  alloc h (cancelCtx parent).

(** The loop of [ctx.Value(key)]: walk the parents until a
    [valueCtx] with the key is found; the root knows no key. *)
Fixpoint value (h : heap) (fuel : nat) (c : nat) (k : key) : any :=
  match fuel with
  | 0 => nilAny
  | S fuel' =>
      match nth_error h c with
      | Some (valueCtx parent k' val) =>
          if key_eqb k k' then val else value h fuel' parent k
      | Some (cancelCtx parent) => value h fuel' parent k
      | Some backgroundCtx | None => nilAny
      end
  end.

(** A parent is allocated before its child, so [S c] steps reach the
    root from [c]. *)
Definition Value (h : heap) (c : nat) (k : key) : any := value h (S c) c k.

Definition parent_of (n : node) : option nat :=
  match n with
  | backgroundCtx => None
  | valueCtx parent _ _ | cancelCtx parent => Some parent
  end.

(** Every object's parent was allocated before it. *)
Definition wf (h : heap) : Prop :=
  forall c n p, nth_error h c = Some n -> parent_of n = Some p -> p < c.

(** [d] was derived from [a] by any number of [WithValue] and
    [WithCancel] steps. *)
Inductive descends (h : heap) (a : nat) : nat -> Prop :=
| descends_self : descends h a a
| descends_step d n p :
    nth_error h d = Some n -> parent_of n = Some p ->
    descends h a p -> descends h a d.

(** The same, none of the steps being a [WithValue] under [ctxKey]. *)
Inductive descends_plain (h : heap) (a : nat) : nat -> Prop :=
| plain_self : descends_plain h a a
| plain_value d p k val :
    nth_error h d = Some (valueCtx p k val) -> k <> ctxKey ->
    descends_plain h a p -> descends_plain h a d
| plain_cancel d p :
    nth_error h d = Some (cancelCtx p) ->
    descends_plain h a p -> descends_plain h a d.

(** No object from [c] up to the root is a [valueCtx] under [ctxKey]. *)
Inductive unassociated (h : heap) : nat -> Prop :=
| unassoc_root c : nth_error h c = Some backgroundCtx -> unassociated h c
| unassoc_value c p k val :
    nth_error h c = Some (valueCtx p k val) -> k <> ctxKey ->
    unassociated h p -> unassociated h c
| unassoc_cancel c p :
    nth_error h c = Some (cancelCtx p) -> unassociated h p -> unassociated h c.

End context.

(** A [Closure] interface value: [None] is nil, [Some p] the strategy
    instance at address [p]. *)
Definition ClosureRef : Type := option nat.

(** [context.WithValue(ctx, ctxKey{}, closure)]. *)
Definition ClosureToContext (h : context.heap) (ctx : nat) (closure : ClosureRef)
    : context.heap * nat :=
  context.WithValue h ctx context.ctxKey
    (match closure with
     | Some p => context.closureAny p
     | None => context.nilAny
     end).

(** [closure, ok := ctx.Value(ctxKey{}).(Closure)]. *)
Definition ClosureFromContext (h : context.heap) (ctx : nat) : ClosureRef * bool :=
  match context.Value h ctx context.ctxKey with
  | context.closureAny p => (Some p, true)
  | _ => (None, false)
  end.

(** ** The package-level registry *)

(** The strategy instance behind the [Closure] interface. *)
Inductive Closure : Type :=
| FifoClosure (f : Fifo)
| LifoClosure (l : Lifo)
| GroupClosure (g : Group).

(** The scheduler's part in one close call: the select outcomes of a
    walk, and the events of a group close. *)
Record scheduling : Type := mkScheduling {
  races : schedule;
  events : list Group.event
}.

Definition entries (c : Closure) : list Closer :=
  match c with
  | FifoClosure f => queue f
  | LifoClosure l => stack l
  | GroupClosure g => closers g
  end.

Definition Closure_Append (c : Closure) (closer : Closer) : Closure :=
  match c with
  | FifoClosure f => FifoClosure (Fifo.Append f closer)
  | LifoClosure l => LifoClosure (Lifo.Append l closer)
  | GroupClosure g => GroupClosure (Group.Append g closer)
  end.

(** [c.CloseContext(ctx)] through the interface: the outcome and the
    registration indices whose close was dispatched. *)
Definition Closure_CloseContext (c : Closure) (ctx : Context) (sc : scheduling)
    : option (error * list nat) :=
  match c with
  | FifoClosure f =>
      let (r, w) := Fifo.CloseContext f ctx (races sc) in Some (r, dispatched w)
  | LifoClosure l =>
      let (r, w) := Lifo.CloseContext l ctx (races sc) in Some (r, dispatched w)
  | GroupClosure g =>
      match Group.CloseContext g ctx (events sc) with
      | Some (r, s) => Some (r, Group.spawned s)
      | None => None
      end
  end.

Module shutdown.

(** The package variables [pkgClosure] and [once], with two
    observers: how often the strategy's close ran, and which
    registrations had their close dispatched. *)
Record state : Type := mkState {
  pkgClosure : Closure;
  once : bool;               (* [sync.Once] has run its function *)
  runs : nat;
  issued : list nat
}.

(** The package as it is loaded: [pkgClosure = &Lifo{}]. *)
Definition start : state := mkState (LifoClosure (mkLifo [])) false 0 [].

Definition SetPackageClosure (c : Closure) (s : state) : state :=
  mkState c (once s) (runs s) (issued s).

Definition Append (closer : Closer) (s : state) : state :=
  mkState (Closure_Append (pkgClosure s) closer) (once s) (runs s) (issued s).

(** [var err error; once.Do(func() { err = pkgClosure.CloseContext(ctx) }); return err]. *)
Definition CloseContext (ctx : Context) (sc : scheduling) (s : state)
    : option (error * state) :=
  if once s then Some (None, s)
  else
    match Closure_CloseContext (pkgClosure s) ctx sc with
    | Some (err, d) =>
        Some (err, mkState (pkgClosure s) true (S (runs s)) (issued s ++ d))
    | None => None
    end.

Definition Close (sc : scheduling) (s : state) : option (error * state) :=
  CloseContext Background sc s.

(** A call into one of the two package-level close operations. *)
Inductive call : Type :=
| CallClose (sc : scheduling)
| CallCloseContext (ctx : Context) (sc : scheduling).

Definition perform (c : call) (s : state) : option (error * state) :=
  match c with
  | CallClose sc => Close sc s
  | CallCloseContext ctx sc => CloseContext ctx sc s
  end.

(** A sequence of calls, one after the other (the package mutex
    serialises them); the outcomes in call order. *)
Fixpoint perform_all (cs : list call) (s : state) : option (list error * state) :=
  match cs with
  | [] => Some ([], s)
  | c :: cs' =>
      match perform c s with
      | Some (r, s') =>
          match perform_all cs' s' with
          | Some (rs, s'') => Some (r :: rs, s'')
          | None => None
          end
      | None => None
      end
  end.

End shutdown.

(** ** Specification vocabulary *)

(** The local [errs] after the closes of [cs] were recorded in turn. *)
Definition aggregate (cs : list Closer) (e : error) : error :=
  fold_left (fun acc c => callClose c acc) cs e.

(** Both walks as one pass over indexed entries. *)
Fixpoint walk_entries (ctx : Context) (sched : schedule) (es : list (nat * Closer))
    (w : walk) : error * walk :=
  match es with
  | [] => (errs w, w)
  | (i, closer) :: rest =>
      match iteration ctx sched i closer w with
      | inl r => r
      | inr w' => walk_entries ctx sched rest w'
      end
  end.

(** The walk state after the goroutines of [es] were spawned and ran
    to completion, one after the other. *)
Definition completed (es : list (nat * Closer)) (w : walk) : walk :=
  fold_left (fun acc e => finish (fst e) (snd e) (spawn (fst e) acc)) es w.

(** Entries with their registration indices, the first being [a]. *)
Definition indexed_from (a : nat) (cs : list Closer) : list (nat * Closer) :=
  combine (seq a (List.length cs)) cs.

(** The registration list with its indices. *)
Definition indexed (cs : list Closer) : list (nat * Closer) := indexed_from 0 cs.

(** What the goroutine of the entry in flight has stored in [errs]
    when the [Done] case is taken. *)
Definition stored (p : progress) (c : Closer) : list Closer :=
  match p with
  | Recorded => [c]
  | NotStarted | Closing => []
  end.

(** The outcome unit [i] of a group leaves in the shared slice. *)
Definition outcome (g : Group) (i : nat) : list error :=
  match nth_error (closers g) i with
  | Some c => Group.record c []
  | None => []
  end.

(** The close call [R] stopped on the signal of [ctx]: it spawned the
    closes [order] and no other, its local [errs] held the failures of
    [seen], and it returned them with [ctx.Err()] appended last. *)
Definition cancelled_at (R : error * walk) (ctx : Context) (order : list nat)
    (seen : list Closer) : Prop :=
  dispatched (snd R) = order
  /\ errs (snd R) = aggregate seen None
  /\ fst R = multierr.Append (errs (snd R)) (Err ctx)
  /\ exists e, Err ctx = Some (Base e)
             /\ Errors (fst R) = Errors (aggregate seen None) ++ [e].

(** What holds of the state of a group close at every moment: all
    goroutines were spawned, a unit finishes once, the shared slice
    holds the failures of the finished units in completion order, a
    wait leg resolves by the signal or by its unit finishing, and only
    a context with a [Done] channel fires. *)
Definition Group_inv (g : Group) (ctx : Context) (s : Group.state) : Prop :=
  Group.spawned s = seq 0 (List.length (closers g))
  /\ NoDup (Group.finished s)
  /\ (forall i, In i (Group.finished s) -> i < List.length (closers g))
  /\ Group.errs s = flat_map (outcome g) (Group.finished s)
  /\ (forall i, In i (Group.resolved s) ->
       Group.fired s = true \/ In i (Group.finished s))
  /\ (Group.fired s = true -> Done ctx = true).

(** What a composite [r] owes to the entries [cs]: it is nil exactly
    when all of them closed without failure, and its text shows the
    text of every failure. *)
Definition reports (r : error) (cs : list Closer) : Prop :=
  (r = None <-> forall x, In x cs -> Close x = None)
  /\ (forall x v, In x cs -> Close x = Some v -> contains (Error r) (errval_Error v)).

(** Well-formedness of a store, decided. *)
Definition wfb (h : context.heap) : bool :=
  forallb (fun c => match nth_error h c with
                    | Some n => match context.parent_of n with
                                | Some p => Nat.ltb p c
                                | None => true
                                end
                    | None => true
                    end)
          (seq 0 (List.length h)).


(** The non-nil entries of a slice of errors. *)
Definition nonNil (errors : list error) : list errval :=
  flat_map (fun e => match e with None => [] | Some v => [v] end) errors.

(** No select of a walk over [n] entries takes the [Done] case. *)
Definition uncancelled (ctx : Context) (sched : schedule) (n : nat) : Prop :=
  forall i, i < n -> select ctx (sched i) = caseNext.

(** No cancellation is observed by the close of [c]. *)
Definition quiet (c : Closure) (ctx : Context) (sc : scheduling) : Prop :=
  match c with
  | FifoClosure f => uncancelled ctx (races sc) (List.length (queue f))
  | LifoClosure l => uncancelled ctx (races sc) (List.length (stack l))
  | GroupClosure g =>
      (forall e, ctx <> Fired e) /\ ~ In Group.Fire (events sc)
  end.

(** The context and the scheduling of a package-level call; [Close]
    passes [context.Background()]. *)
Definition call_ctx (k : shutdown.call) : Context :=
  match k with
  | shutdown.CallClose _ => Background
  | shutdown.CallCloseContext ctx _ => ctx
  end.

Definition call_sc (k : shutdown.call) : scheduling :=
  match k with
  | shutdown.CallClose sc | shutdown.CallCloseContext _ sc => sc
  end.

(** The call [k] does not cut the close of [c] short: a group spawns
    all its closes at once, a walk does when no select takes the
    [Done] case. *)
Definition undisturbed (c : Closure) (k : shutdown.call) : Prop :=
  match c with
  | GroupClosure _ => True
  | FifoClosure _ | LifoClosure _ =>
      uncancelled (call_ctx k) (races (call_sc k)) (List.length (entries c))
  end.

(** ** The rest of the package *)

(** [l.WithContext(ctx)] and [g.WithContext(ctx)]: the receiver, the
    strategy instance at address [self], is attached to [ctx]. *)
Definition Lifo_WithContext (self : nat) (h : context.heap) (ctx : nat)
    : context.heap * nat :=
  ClosureToContext h ctx (Some self).

Definition Group_WithContext (self : nat) (h : context.heap) (ctx : nat)
    : context.heap * nat :=
  ClosureToContext h ctx (Some self).

(** Registrations through the package-level [Append], one after the
    other. *)
Definition appends (cs : list Closer) (s : shutdown.state) : shutdown.state :=
  fold_left (fun acc c => shutdown.Append c acc) cs s.

(** A call into the package: [SetPackageClosure], [Append], or one of
    the close operations. *)
Inductive operation : Type :=
| opSetPackageClosure (c : Closure)
| opAppend (closer : Closer)
| opClose (k : shutdown.call).

(** One operation; a close operation also yields its outcome. *)
Definition operate (o : operation) (s : shutdown.state)
    : option (list error * shutdown.state) :=
  match o with
  | opSetPackageClosure c => Some ([], shutdown.SetPackageClosure c s)
  | opAppend closer => Some ([], shutdown.Append closer s)
  | opClose k =>
      match shutdown.perform k s with
      | Some (r, s') => Some ([r], s')
      | None => None
      end
  end.

(** Operations one after the other (the package mutex serialises
    them); the outcomes of the close operations in call order. *)
Fixpoint operate_all (os : list operation) (s : shutdown.state)
    : option (list error * shutdown.state) :=
  match os with
  | [] => Some ([], s)
  | o :: os' =>
      match operate o s with
      | Some (rs, s') =>
          match operate_all os' s' with
          | Some (rs', s'') => Some (rs ++ rs', s'')
          | None => None
          end
      | None => None
      end
  end.

(** An operating-system signal, by the name its [String()] gives. *)
Definition Signal : Type := string.

(** The [Logger] the signal helpers write to: the messages so far. *)
Definition Logger : Type := list string.

(** [logger.Msgf("Received signal: %s", v)], [text] being what [%s]
    prints for [v]. *)
Definition Msgf_received (logger : Logger) (text : string) : Logger :=
  logger ++ [("Received signal: " ++ text)%string].


(** What ends the wait on [signal.NotifyContext(ctx, sig...)]: a
    signal arrives, or the parent context is done. *)
Inductive wake : Type :=
| signalArrived (received : Signal)
| contextDone.

(** [sigCtx.Err()] after [<-sigCtx.Done()]: the parent's error when
    the parent is done, [context.Canceled] when a signal arrived (the
    notify context cancels itself).  A context that fired before the
    call ends the wait at once; [Background] is never done, so its
    wait ends by a signal. *)
Definition sigCtx_Err (ctx : Context) (w : wake) : error :=
  match ctx, w with
  | Fired e, _ => Some (Base e)
  | Cancellable e, contextDone => Some (Base e)
  | _, _ => Some (Base Canceled)
  end.

(** The caller's context as it is when the wait has ended. *)
Definition after_wait (ctx : Context) (w : wake) : Context :=
  match ctx, w with
  | Cancellable e, contextDone => Fired e
  | _, _ => ctx
  end.

(** [WaitForSignalsContext(ctx, logger, sig...)]. *)
Definition WaitForSignalsContext (ctx : Context) (logger : Logger) (sig : list Signal)
    (w : wake) : Logger :=
  Msgf_received logger (Error (sigCtx_Err ctx w)).


(** [CloseOnSignalContext(ctx, logger, sig...)]: wait, then the
    package-level [CloseContext(ctx)] with the same context. *)
Definition CloseOnSignalContext (ctx : Context) (logger : Logger) (sig : list Signal)
    (w : wake) (sc : scheduling) (s : shutdown.state)
    : Logger * option (error * shutdown.state) :=
  (WaitForSignalsContext ctx logger sig w,
   shutdown.CloseContext (after_wait ctx w) sc s).

(** * Properties *)

(** ** The package's tests, replayed *)

Section Tests.

Let failing (n : nat) (msg : string) : Closer := mkCloser n (Some (Base (errorString msg))).
Let quietly : schedule := fun _ => caseNext.

(** TestFifo, "add and close with error". *)
Example TestFifo_close_with_error :
  Error (fst (Fifo.Close (mkFifo [failing 1 "close error"; mkCloser 2 None]) quietly))
  = "close error".
Proof. reflexivity. Qed.

(** TestFifo, "close with context cancel": the deadline passes while
    the first close sleeps. *)
Example TestFifo_close_with_context_cancel :
  Fifo.CloseContext (mkFifo [mkCloser 1 None; mkCloser 2 None])
    (Cancellable DeadlineExceeded) (fun _ => caseDone Closing)
  = (Some (Base DeadlineExceeded), mkWalk None [0] [0]).
Proof. reflexivity. Qed.

(** TestLifoCloseContext, first half. *)
Example TestLifoCloseContext :
  Lifo.CloseContext
    (mkLifo [mkCloser 1 None; failing 2 "second error"; mkCloser 3 None])
    Background quietly
  = (Some (Base (errorString "second error")),
     mkWalk (Some (Base (errorString "second error"))) [2; 1; 0] [2; 1; 0]).
Proof. reflexivity. Qed.

(** Two failures are joined by "; ", the later registration first. *)
Example Lifo_two_failures :
  Error (fst (Lifo.Close (mkLifo [failing 1 "a"; failing 2 "b"]) quietly)) = "b; a".
Proof. reflexivity. Qed.

(** TestGroupClose. *)
Example TestGroupClose :
  option_map fst
    (Group.Close (mkGroup [mkCloser 1 None; failing 2 "closer error"; mkCloser 3 None])
       [Group.Finish 0; Group.Resolve 0; Group.Finish 1; Group.Resolve 1;
        Group.Finish 2; Group.Resolve 2])
  = Some (Some (Base (errorString "closer error"))).
Proof. reflexivity. Qed.

(** TestGroupCloseContext: the third close is still running when the
    deadline passes; the call returns nil. *)
Example TestGroupCloseContext :
  Group.CloseContext (mkGroup [mkCloser 1 None; mkCloser 2 None; mkCloser 3 None])
    (Cancellable DeadlineExceeded)
    [Group.Finish 0; Group.Resolve 0; Group.Finish 1; Group.Resolve 1;
     Group.Fire; Group.Resolve 2]
  = Some (None, Group.mkState [0; 1; 2] [0; 1] [] true [0; 1; 2]).
Proof. reflexivity. Qed.

(** A group close cannot return while a wait leg is unresolved. *)
Example Group_blocked :
  Group.Close (mkGroup [mkCloser 1 None; mkCloser 2 None])
    [Group.Finish 0; Group.Resolve 0]
  = None.
Proof. reflexivity. Qed.

(** TestClosureToContext and TestClosureFromContext_NoClosure. *)
Example TestClosureToContext :
  ClosureFromContext (fst (ClosureToContext [context.backgroundCtx] 0 (Some 5)))
                     (snd (ClosureToContext [context.backgroundCtx] 0 (Some 5)))
  = (Some 5, true).
Proof. reflexivity. Qed.

Example TestClosureFromContext_NoClosure :
  ClosureFromContext [context.backgroundCtx] 0 = (None, false).
Proof. reflexivity. Qed.

(** TestAppendAndCloseWithError. *)
Example TestAppendAndCloseWithError :
  option_map fst
    (shutdown.Close (mkScheduling quietly [])
       (shutdown.Append (failing 1 "close error")
          (shutdown.SetPackageClosure (FifoClosure (mkFifo [])) shutdown.start)))
  = Some (Some (Base (errorString "close error"))).
Proof. reflexivity. Qed.

End Tests.

(** ** Texts *)

Section Texts.

Lemma append_nil_r (s : string) : (s ++ "")%string = s.
Proof. induction s as [|a s IH]; simpl; congruence. Qed.

Lemma append_assoc (a b c : string) : ((a ++ b) ++ c = a ++ (b ++ c))%string.
Proof. induction a as [|x a IH]; simpl; congruence. Qed.

Lemma contains_refl (s : string) : contains s s.
Proof. exists "", "". simpl. now rewrite append_nil_r. Qed.

Lemma contains_empty (s : string) : contains s "".
Proof. exists "", s. reflexivity. Qed.

Lemma contains_left (a s m : string) : contains s m -> contains (a ++ s) m.
Proof.
  intros (pre & post & ->). exists (a ++ pre)%string, post.
  now rewrite append_assoc.
Qed.

Lemma contains_right (s b m : string) : contains s m -> contains (s ++ b) m.
Proof.
  intros (pre & post & ->). exists pre, (post ++ b)%string.
  now rewrite !append_assoc.
Qed.

(** Joining with a separator distributes over a split of the list,
    when neither half is empty. *)
Lemma concat_app (sep : string) (xs ys : list string) :
  xs <> [] -> ys <> [] ->
  String.concat sep (xs ++ ys)
  = (String.concat sep xs ++ sep ++ String.concat sep ys)%string.
Proof.
  intros Hx Hy. induction xs as [|x xs IH]; [congruence|].
  destruct xs as [|x' xs].
  - simpl. destruct ys; [congruence | reflexivity].
  - change (String.concat sep ((x :: x' :: xs) ++ ys))
      with (x ++ sep ++ String.concat sep ((x' :: xs) ++ ys))%string.
    rewrite IH by discriminate.
    change (String.concat sep (x :: x' :: xs))
      with (x ++ sep ++ String.concat sep (x' :: xs))%string.
    now rewrite !append_assoc.
Qed.

Lemma concat_contains_r (sep : string) (xs ys : list string) :
  contains (String.concat sep (xs ++ ys)) (String.concat sep ys).
Proof.
  destruct xs as [|x xs]; [apply contains_refl|].
  destruct ys as [|y ys]; [apply contains_empty|].
  rewrite concat_app by discriminate.
  apply contains_left, contains_left, contains_refl.
Qed.

Lemma concat_contains_l (sep : string) (xs ys : list string) :
  contains (String.concat sep (xs ++ ys)) (String.concat sep xs).
Proof.
  destruct ys as [|y ys]; [rewrite app_nil_r; apply contains_refl|].
  destruct xs as [|x xs]; [apply contains_empty|].
  rewrite concat_app by discriminate.
  apply contains_right, contains_refl.
Qed.

Lemma contains_trans (s m k : string) : contains s m -> contains m k -> contains s k.
Proof.
  intros (p1 & q1 & ->) (p2 & q2 & ->).
  exists (p1 ++ p2)%string, (q2 ++ q1)%string. now rewrite !append_assoc.
Qed.

(** The join of a middle segment occurs in the join of the whole. *)
Lemma concat_contains_mid (sep : string) (pre mid post : list string) :
  contains (String.concat sep (pre ++ mid ++ post)) (String.concat sep mid).
Proof.
  eapply contains_trans; [apply concat_contains_r | apply concat_contains_l].
Qed.

End Texts.

(** ** Aggregation *)

Section Aggregation.

(** The text of an error is the join of its constituents' texts. *)
Lemma Error_join (e : error) :
  Error e = String.concat "; " (map base_Error (Errors e)).
Proof. destruct e as [[b|es]|]; reflexivity. Qed.

Lemma Errors_Append (a b : error) :
  Errors (multierr.Append a b) = Errors a ++ Errors b.
Proof.
  destruct a as [x|], b as [y|]; simpl; try reflexivity.
  now rewrite app_nil_r.
Qed.

Lemma Append_nil_iff (a b : error) :
  multierr.Append a b = None <-> a = None /\ b = None.
Proof.
  destruct a, b; simpl; split; intros H; try discriminate; auto;
    destruct H; discriminate.
Qed.

Lemma callClose_Errors (c : Closer) (e : error) :
  Errors (callClose c e) = Errors e ++ Errors (Close c).
Proof.
  unfold callClose. destruct (Close c) as [v|].
  - apply Errors_Append.
  - simpl. now rewrite app_nil_r.
Qed.

Lemma callClose_nil_iff (c : Closer) (e : error) :
  callClose c e = None <-> e = None /\ Close c = None.
Proof.
  unfold callClose. destruct (Close c) as [v|].
  - rewrite Append_nil_iff. tauto.
  - tauto.
Qed.

Lemma aggregate_app (xs ys : list Closer) (e : error) :
  aggregate (xs ++ ys) e = aggregate ys (aggregate xs e).
Proof. apply fold_left_app. Qed.

Lemma aggregate_Errors (cs : list Closer) (e : error) :
  Errors (aggregate cs e) = Errors e ++ flat_map (fun c => Errors (Close c)) cs.
Proof.
  revert e. induction cs as [|c cs IH]; intros e; simpl.
  - now rewrite app_nil_r.
  - change (Errors (aggregate cs (callClose c e))
            = Errors e ++ Errors (Close c) ++ flat_map (fun c => Errors (Close c)) cs).
    now rewrite IH, callClose_Errors, app_assoc.
Qed.

Lemma aggregate_nil_iff (cs : list Closer) (e : error) :
  aggregate cs e = None <-> e = None /\ forall c, In c cs -> Close c = None.
Proof.
  revert e. induction cs as [|c cs IH]; intros e; simpl.
  - firstorder.
  - change (aggregate cs (callClose c e) = None <->
            e = None /\ (forall c0, c = c0 \/ In c0 cs -> Close c0 = None)).
    rewrite IH, callClose_nil_iff. split.
    + intros [[He Hc] H]. split; [assumption|]. intros c0 [<-|Hin]; auto.
    + intros [He H]. repeat split; auto.
Qed.

Lemma Errors_Combine (errors : list error) :
  Errors (multierr.Combine errors) = flat_map Errors errors.
Proof.
  assert (G : forall l, flat_map errval_Errors (nonNil l) = flat_map Errors l).
  { induction l as [|[v|] l IH]; simpl; [reflexivity| |assumption].
    now rewrite IH. }
  unfold multierr.Combine, multierr.fromSlice.
  destruct errors as [|e [|e' rest]].
  - reflexivity.
  - simpl. now rewrite app_nil_r.
  - fold (nonNil (e :: e' :: rest)). rewrite <- G.
    destruct (nonNil (e :: e' :: rest)) as [|v [|v' vs]]; simpl;
      try reflexivity.
    now rewrite app_nil_r.
Qed.

Lemma Combine_nil_iff (errors : list error) :
  multierr.Combine errors = None <-> forall e, In e errors -> e = None.
Proof.
  assert (G : forall l, nonNil l = [] <-> forall e, In e l -> e = None).
  { induction l as [|[v|] l IH]; simpl.
    - firstorder.
    - split; [discriminate|]. intros H. specialize (H (Some v) (or_introl eq_refl)).
      discriminate.
    - rewrite IH. split; intros H e; [intros [<-|]|]; auto. }
  unfold multierr.Combine, multierr.fromSlice.
  destruct errors as [|e [|e' rest]].
  - firstorder.
  - simpl. split; [intros -> x [<-|[]]; reflexivity | intros H; apply H; now left].
  - fold (nonNil (e :: e' :: rest)). rewrite <- G.
    destruct (nonNil (e :: e' :: rest)) as [|v [|v' vs]];
      split; congruence.
Qed.

(** Every constituent failure's text occurs in the composite's. *)
Lemma Error_contains (r : error) (pre post : list base_error) (v : errval) :
  Errors r = pre ++ errval_Errors v ++ post ->
  contains (Error r) (errval_Error v).
Proof.
  intros H. rewrite Error_join, H, !map_app.
  replace (errval_Error v) with (String.concat "; " (map base_Error (errval_Errors v)))
    by (destruct v; reflexivity).
  apply concat_contains_mid.
Qed.

Lemma flat_map_split {A B} (f : A -> list B) (l : list A) (x : A) :
  In x l -> exists pre post, flat_map f l = pre ++ f x ++ post.
Proof.
  intros Hin. apply in_split in Hin as (l1 & l2 & ->).
  exists (flat_map f l1), (flat_map f l2).
  now rewrite flat_map_app.
Qed.

End Aggregation.

(** ** The two walks *)

Section Walks.

Variables (ctx : Context) (sched : schedule).

Lemma combine_snoc {A B} (xs : list A) (ys : list B) (x : A) (y : B) :
  List.length xs = List.length ys ->
  combine (xs ++ [x]) (ys ++ [y]) = combine xs ys ++ [(x, y)].
Proof.
  revert ys. induction xs as [|a xs IH]; intros [|b ys] H; simpl in *;
    try discriminate; [reflexivity|].
  f_equal. apply IH. now injection H.
Qed.

Lemma firstn_snoc {A} (l : list A) (i : nat) (x : A) :
  nth_error l i = Some x -> firstn (S i) l = firstn i l ++ [x].
Proof.
  revert i. induction l as [|a l IH]; intros [|i] H; simpl in *;
    try discriminate.
  - now injection H as ->.
  - f_equal. now apply IH.
Qed.

Lemma indexed_snoc (cs : list Closer) (c : Closer) :
  indexed (cs ++ [c]) = indexed cs ++ [(List.length cs, c)].
Proof.
  unfold indexed, indexed_from.
  replace (List.length (cs ++ [c])) with (S (List.length cs))
    by (rewrite length_app; simpl; lia).
  rewrite seq_S. apply combine_snoc. now rewrite length_seq.
Qed.

Lemma indexed_fst (cs : list Closer) : map fst (indexed cs) = seq 0 (List.length cs).
Proof.
  induction cs as [|c cs IH] using rev_ind; [reflexivity|].
  rewrite indexed_snoc, map_app, IH.
  replace (List.length (cs ++ [c])) with (S (List.length cs))
    by (rewrite length_app; simpl; lia).
  now rewrite seq_S.
Qed.

Lemma indexed_snd (cs : list Closer) : map snd (indexed cs) = cs.
Proof.
  induction cs as [|c cs IH] using rev_ind; [reflexivity|].
  now rewrite indexed_snoc, map_app, IH.
Qed.

Lemma indexed_In (cs : list Closer) (i : nat) (c : Closer) :
  In (i, c) (indexed cs) -> i < List.length cs /\ nth_error cs i = Some c.
Proof.
  induction cs as [|x cs IH] using rev_ind; [intros []|].
  rewrite indexed_snoc, length_app, in_app_iff. simpl. intros [H|[H|[]]].
  - destruct (IH H) as [Hlt Hn]. split; [lia|].
    now rewrite nth_error_app1.
  - injection H as <- <-. split; [lia|].
    now rewrite nth_error_app2, Nat.sub_diag.
Qed.

(** The loop of [Fifo.CloseContext] is the pass over the indexed queue. *)
Lemma Fifo_loop_entries (q : list Closer) (i : nat) (w : walk) :
  Fifo.loop ctx sched i q w = walk_entries ctx sched (indexed_from i q) w.
Proof.
  unfold indexed_from.
  revert i w. induction q as [|c q IH]; intros i w; simpl; [reflexivity|].
  destruct (iteration ctx sched i c w); [reflexivity | apply IH].
Qed.

(** The loop of [Lifo.CloseContext] is the pass over the reversed
    indexed stack. *)
Lemma Lifo_loop_entries (s : list Closer) (n : nat) (w : walk) :
  n <= List.length s ->
  Lifo.loop ctx sched s n w
  = walk_entries ctx sched (rev (indexed (firstn n s))) w.
Proof.
  revert w. induction n as [|i IH]; intros w Hn; [reflexivity|].
  destruct (nth_error s i) as [c|] eqn:Hc.
  2: { apply nth_error_None in Hc. lia. }
  simpl. rewrite Hc.
  replace (match s with [] => [] | a :: l => a :: firstn i l end)
    with (firstn (S i) s) by reflexivity.
  rewrite (firstn_snoc _ _ _ Hc), indexed_snoc, rev_app_distr.
  rewrite length_firstn, Nat.min_l by lia. simpl.
  destruct (iteration ctx sched i c w); [reflexivity|].
  apply IH. lia.
Qed.

Lemma completed_dispatched (es : list (nat * Closer)) (w : walk) :
  dispatched (completed es w) = dispatched w ++ map fst es.
Proof.
  revert w. induction es as [|[i c] es IH]; intros w; simpl.
  - now rewrite app_nil_r.
  - change (dispatched (completed es (finish i c (spawn i w)))
            = dispatched w ++ i :: map fst es).
    rewrite IH. simpl. now rewrite <- app_assoc.
Qed.

Lemma completed_invoked (es : list (nat * Closer)) (w : walk) :
  invoked (completed es w) = invoked w ++ map fst es.
Proof.
  revert w. induction es as [|[i c] es IH]; intros w; simpl.
  - now rewrite app_nil_r.
  - change (invoked (completed es (finish i c (spawn i w)))
            = invoked w ++ i :: map fst es).
    rewrite IH. simpl. now rewrite <- app_assoc.
Qed.

Lemma completed_errs (es : list (nat * Closer)) (w : walk) :
  errs (completed es w) = aggregate (map snd es) (errs w).
Proof.
  revert w. induction es as [|[i c] es IH]; intros w; simpl; [reflexivity|].
  change (errs (completed es (finish i c (spawn i w)))
          = aggregate (map snd es) (callClose c (errs w))).
  now rewrite IH.
Qed.

(** A pass none of whose selects takes the [Done] case runs every
    entry to completion and returns the local [errs]. *)
Lemma walk_entries_quiet (es : list (nat * Closer)) (w : walk) :
  (forall i c, In (i, c) es -> select ctx (sched i) = caseNext) ->
  walk_entries ctx sched es w = (errs (completed es w), completed es w).
Proof.
  revert w. induction es as [|[i c] es IH]; intros w H; [reflexivity|].
  simpl. unfold iteration. rewrite (H i c) by now left.
  apply IH. intros j d Hin. apply (H j d). now right.
Qed.

(** A pass whose select at entry [(k, c)] is the first to take the
    [Done] case returns there. *)
Lemma walk_entries_cancel (pre post : list (nat * Closer)) (k : nat) (c : Closer)
    (p : progress) (w : walk) :
  (forall i d, In (i, d) pre -> select ctx (sched i) = caseNext) ->
  select ctx (sched k) = caseDone p ->
  let w' := partial p k c (spawn k (completed pre w)) in
  walk_entries ctx sched (pre ++ (k, c) :: post) w
  = (multierr.Append (errs w') (Err ctx), w').
Proof.
  revert w. induction pre as [|[i d] pre IH]; intros w H Hk; simpl.
  - unfold iteration. now rewrite Hk.
  - unfold iteration at 1. rewrite (H i d) by now left.
    apply IH; [|assumption]. intros j e Hin. apply (H j e). now right.
Qed.

Lemma indexed_from_snoc (a : nat) (cs : list Closer) (c : Closer) :
  indexed_from a (cs ++ [c]) = indexed_from a cs ++ [(a + List.length cs, c)].
Proof.
  unfold indexed_from.
  replace (List.length (cs ++ [c])) with (S (List.length cs))
    by (rewrite length_app; simpl; lia).
  rewrite seq_S. apply combine_snoc. now rewrite length_seq.
Qed.

Lemma indexed_from_app (a : nat) (xs ys : list Closer) :
  indexed_from a (xs ++ ys)
  = indexed_from a xs ++ indexed_from (a + List.length xs) ys.
Proof.
  induction ys as [|y ys IH] using rev_ind.
  - rewrite app_nil_r. unfold indexed_from at 3. simpl. now rewrite app_nil_r.
  - rewrite app_assoc, !indexed_from_snoc, IH, length_app, <- app_assoc.
    now rewrite Nat.add_assoc.
Qed.

Lemma indexed_from_cons (a : nat) (c : Closer) (cs : list Closer) :
  indexed_from a (c :: cs) = (a, c) :: indexed_from (S a) cs.
Proof. reflexivity. Qed.

Lemma indexed_from_fst (a : nat) (cs : list Closer) :
  map fst (indexed_from a cs) = seq a (List.length cs).
Proof.
  revert a. induction cs as [|c cs IH]; intros a; [reflexivity|].
  rewrite indexed_from_cons. simpl. now rewrite IH.
Qed.

Lemma indexed_from_snd (a : nat) (cs : list Closer) :
  map snd (indexed_from a cs) = cs.
Proof.
  revert a. induction cs as [|c cs IH]; intros a; [reflexivity|].
  rewrite indexed_from_cons. simpl. now rewrite IH.
Qed.

Lemma indexed_from_In (a : nat) (cs : list Closer) (i : nat) (c : Closer) :
  In (i, c) (indexed_from a cs) -> a <= i < a + List.length cs /\ In c cs.
Proof.
  intros H. split.
  - apply (in_map fst) in H. rewrite indexed_from_fst in H.
    apply in_seq in H. exact H.
  - apply (in_map snd) in H. now rewrite indexed_from_snd in H.
Qed.

(** The pass of [Fifo.CloseContext]. *)
Lemma Fifo_CloseContext_entries (f : Fifo) :
  Fifo.CloseContext f ctx sched = walk_entries ctx sched (indexed (queue f)) walk0.
Proof. apply Fifo_loop_entries. Qed.

(** The pass of [Lifo.CloseContext]. *)
Lemma Lifo_CloseContext_entries (l : Lifo) :
  Lifo.CloseContext l ctx sched
  = walk_entries ctx sched (rev (indexed (stack l))) walk0.
Proof.
  unfold Lifo.CloseContext. rewrite Lifo_loop_entries by lia.
  now rewrite firstn_all.
Qed.

(** The goroutine of the first entry of a pass is always spawned. *)
Lemma walk_entries_first (i : nat) (c : Closer) (es : list (nat * Closer)) (w : walk) :
  exists rest,
    dispatched (snd (walk_entries ctx sched ((i, c) :: es) w))
    = dispatched w ++ i :: rest.
Proof.
  assert (G : forall es w, exists rest,
             dispatched (snd (walk_entries ctx sched es w)) = dispatched w ++ rest).
  { clear. intros es. induction es as [|[j d] es IH]; intros w; simpl.
    - exists []. now rewrite app_nil_r.
    - unfold iteration. destruct (select ctx (sched j)) as [|p].
      + destruct (IH (finish j d (spawn j w))) as [rest ->].
        exists (j :: rest). simpl. now rewrite <- app_assoc.
      + exists [j]. now destruct p. }
  simpl. unfold iteration. destruct (select ctx (sched i)) as [|p].
  - destruct (G es (finish i c (spawn i w))) as [rest ->].
    exists rest. simpl. now rewrite <- app_assoc.
  - exists []. now destruct p.
Qed.

End Walks.

(** ** Close order of the sequential strategies *)

Lemma Fifo_uncancelled (f : Fifo) (ctx : Context) (sched : schedule) :
  uncancelled ctx sched (List.length (queue f)) ->
  Fifo.CloseContext f ctx sched
  = (aggregate (queue f) None,
     mkWalk (aggregate (queue f) None)
            (seq 0 (List.length (queue f))) (seq 0 (List.length (queue f)))).
Proof.
  intros H. rewrite Fifo_CloseContext_entries, walk_entries_quiet.
  - pose proof (completed_dispatched (indexed (queue f)) walk0) as D.
    pose proof (completed_invoked (indexed (queue f)) walk0) as I.
    pose proof (completed_errs (indexed (queue f)) walk0) as E.
    rewrite indexed_fst in D, I. rewrite indexed_snd in E.
    destruct (completed (indexed (queue f)) walk0) as [e d i].
    simpl in *. now subst.
  - intros i c Hin. apply H. now apply indexed_In in Hin.
Qed.

Lemma Lifo_uncancelled (l : Lifo) (ctx : Context) (sched : schedule) :
  uncancelled ctx sched (List.length (stack l)) ->
  Lifo.CloseContext l ctx sched
  = (aggregate (rev (stack l)) None,
     mkWalk (aggregate (rev (stack l)) None)
            (rev (seq 0 (List.length (stack l)))) (rev (seq 0 (List.length (stack l))))).
Proof.
  intros H. rewrite Lifo_CloseContext_entries, walk_entries_quiet.
  - pose proof (completed_dispatched (rev (indexed (stack l))) walk0) as D.
    pose proof (completed_invoked (rev (indexed (stack l))) walk0) as I.
    pose proof (completed_errs (rev (indexed (stack l))) walk0) as E.
    rewrite map_rev, indexed_fst in D, I. rewrite map_rev, indexed_snd in E.
    destruct (completed (rev (indexed (stack l))) walk0) as [e d i].
    simpl in *. now subst.
  - intros i c Hin. apply H. apply in_rev in Hin. now apply indexed_In in Hin.
Qed.

(** C3.  A [Fifo] whose close meets no cancellation spawns the close
    of every entry exactly once, in registration order [0, 1, ..., n-1];
    every one of them is called whatever the earlier ones reported, and
    the call returns what they reported, accumulated in that order. *)
Theorem Fifo_close_in_order (f : Fifo) (ctx : Context) (sched : schedule) :
  uncancelled ctx sched (List.length (queue f)) ->
  dispatched (snd (Fifo.CloseContext f ctx sched)) = seq 0 (List.length (queue f))
  /\ invoked (snd (Fifo.CloseContext f ctx sched)) = seq 0 (List.length (queue f))
  /\ (forall i, i < List.length (queue f) ->
       count_occ Nat.eq_dec (invoked (snd (Fifo.CloseContext f ctx sched))) i = 1)
  /\ fst (Fifo.CloseContext f ctx sched) = aggregate (queue f) None.
Proof.
  intros H. rewrite (Fifo_uncancelled f ctx sched H). cbn [fst snd dispatched invoked].
  repeat split. intros i Hi.
  apply NoDup_count_occ'; [apply seq_NoDup | apply in_seq; lia].
Qed.

Lemma Fifo_close_in_order_witness :
  let f := mkFifo [mkCloser 7 (Some (Base (errorString "a")));
                   mkCloser 8 None;
                   mkCloser 9 (Some (Base (errorString "c")))] in
  dispatched (snd (Fifo.CloseContext f Background (fun _ => caseDone Closing))) = [0; 1; 2]
  /\ invoked (snd (Fifo.CloseContext f Background (fun _ => caseDone Closing))) = [0; 1; 2]
  /\ (forall i, i < 3 ->
       count_occ Nat.eq_dec
         (invoked (snd (Fifo.CloseContext f Background (fun _ => caseDone Closing)))) i = 1)
  /\ fst (Fifo.CloseContext f Background (fun _ => caseDone Closing))
     = Some (multiError [errorString "a"; errorString "c"]).
Proof.
  intros f. apply (Fifo_close_in_order f Background (fun _ => caseDone Closing)).
  intros i _. reflexivity.
Defined.

(** C4.  A [Lifo] whose close meets no cancellation spawns the close
    of every entry exactly once, in reverse registration order
    [n-1, ..., 1, 0], and returns what they reported, accumulated in
    that order. *)
Theorem Lifo_close_in_reverse_order (l : Lifo) (ctx : Context) (sched : schedule) :
  uncancelled ctx sched (List.length (stack l)) ->
  dispatched (snd (Lifo.CloseContext l ctx sched)) = rev (seq 0 (List.length (stack l)))
  /\ invoked (snd (Lifo.CloseContext l ctx sched)) = rev (seq 0 (List.length (stack l)))
  /\ (forall i, i < List.length (stack l) ->
       count_occ Nat.eq_dec (invoked (snd (Lifo.CloseContext l ctx sched))) i = 1)
  /\ fst (Lifo.CloseContext l ctx sched) = aggregate (rev (stack l)) None.
Proof.
  intros H. rewrite (Lifo_uncancelled l ctx sched H). cbn [fst snd dispatched invoked].
  repeat split. intros i Hi.
  apply NoDup_count_occ'; [apply NoDup_rev, seq_NoDup | apply -> in_rev; apply in_seq; lia].
Qed.

Lemma Lifo_close_in_reverse_order_witness :
  let l := mkLifo [mkCloser 7 (Some (Base (errorString "a")));
                   mkCloser 8 None;
                   mkCloser 9 (Some (Base (errorString "c")))] in
  dispatched (snd (Lifo.CloseContext l Background (fun _ => caseNext))) = [2; 1; 0]
  /\ invoked (snd (Lifo.CloseContext l Background (fun _ => caseNext))) = [2; 1; 0]
  /\ (forall i, i < 3 ->
       count_occ Nat.eq_dec
         (invoked (snd (Lifo.CloseContext l Background (fun _ => caseNext)))) i = 1)
  /\ fst (Lifo.CloseContext l Background (fun _ => caseNext))
     = Some (multiError [errorString "c"; errorString "a"]).
Proof.
  intros l. apply (Lifo_close_in_reverse_order l Background (fun _ => caseNext)).
  intros i _. reflexivity.
Defined.

(** ** Cancellation of a walk *)

Section Cancellation.

Variables (ctx : Context) (sched : schedule).

Lemma select_Done_Err (r : race) (p : progress) :
  select ctx r = caseDone p -> exists e, Err ctx = Some (Base e).
Proof.
  unfold select. destruct ctx as [|e|e]; simpl; [discriminate| |]; eauto.
Qed.

Lemma partial_dispatched (p : progress) (i : nat) (c : Closer) (w : walk) :
  dispatched (partial p i c w) = dispatched w.
Proof. now destruct p. Qed.

Lemma partial_errs (p : progress) (i : nat) (c : Closer) (w : walk) :
  errs (partial p i c w) = aggregate (stored p c) (errs w).
Proof. now destruct p. Qed.

(** A pass stopped at [(k, c)] after the entries [before]. *)
Lemma walk_entries_cancelled_at (before after : list (nat * Closer)) (k : nat)
    (c : Closer) (p : progress) :
  (forall i d, In (i, d) before -> select ctx (sched i) = caseNext) ->
  select ctx (sched k) = caseDone p ->
  cancelled_at (walk_entries ctx sched (before ++ (k, c) :: after) walk0) ctx
               (map fst before ++ [k]) (map snd before ++ stored p c).
Proof.
  intros Hq Hk. rewrite (walk_entries_cancel ctx sched before after k c p walk0 Hq Hk).
  destruct (select_Done_Err _ _ Hk) as [e He].
  assert (E : errs (partial p k c (spawn k (completed before walk0)))
              = aggregate (map snd before ++ stored p c) None).
  { rewrite partial_errs, aggregate_app. simpl. now rewrite completed_errs. }
  unfold cancelled_at. simpl. repeat split.
  - rewrite partial_dispatched. simpl. now rewrite completed_dispatched.
  - exact E.
  - exists e. split; [exact He|]. now rewrite E, He, Errors_Append.
Qed.

End Cancellation.



(** ** A signal that fired before the call *)

(** C9, as stated, fails: the signal fired before the call, the only
    close finished before the select was evaluated and the select took
    the completion case; the call returns nil, without the terminal
    error of the signal. *)
Lemma fired_signal_may_go_unseen :
  ~ (forall (f : Fifo) (e : base_error) (sched : schedule),
        queue f <> [] ->
        In e (Errors (fst (Fifo.CloseContext f (Fired e) sched)))).
Proof.
  intros H.
  specialize (H (mkFifo [mkCloser 0 None]) Canceled (fun _ => caseNext)).
  simpl in H. apply H. discriminate.
Qed.

(** C9, amended.  Whatever the signal and the schedule, a non-empty
    [Fifo] spawns the close of its front entry and a non-empty [Lifo]
    that of its most recently appended entry, before any select.  When
    the select of that first iteration takes the [Done] case, no other
    close is spawned and the call returns the terminal error of the
    signal as last constituent; when every select takes the completion
    case, the call returns the failures alone. *)
Theorem first_entry_is_dispatched (cs : list Closer) (c : Closer) (e : base_error)
    (sched : schedule) :
  (exists rest, dispatched (snd (Fifo.CloseContext (mkFifo (c :: cs)) (Fired e) sched))
                = 0 :: rest)
  /\ (exists rest, dispatched (snd (Lifo.CloseContext (mkLifo (cs ++ [c])) (Fired e) sched))
                   = List.length cs :: rest)
  /\ (forall p, sched 0 = caseDone p ->
       cancelled_at (Fifo.CloseContext (mkFifo (c :: cs)) (Fired e) sched) (Fired e)
                    [0] (stored p c))
  /\ (forall p, sched (List.length cs) = caseDone p ->
       cancelled_at (Lifo.CloseContext (mkLifo (cs ++ [c])) (Fired e) sched) (Fired e)
                    [List.length cs] (stored p c))
  /\ ((forall i, sched i = caseNext) ->
       fst (Fifo.CloseContext (mkFifo (c :: cs)) (Fired e) sched) = aggregate (c :: cs) None
       /\ fst (Lifo.CloseContext (mkLifo (cs ++ [c])) (Fired e) sched)
          = aggregate (rev (cs ++ [c])) None).
Proof.
  split; [|split; [|split; [|split]]].
  - rewrite Fifo_CloseContext_entries.
    apply (walk_entries_first (Fired e) sched 0 c (indexed_from 1 cs) walk0).
  - rewrite Lifo_CloseContext_entries.
    change (stack (mkLifo (cs ++ [c]))) with (cs ++ [c]).
    rewrite indexed_snoc, rev_app_distr.
    apply (walk_entries_first (Fired e) sched (List.length cs) c (rev (indexed cs)) walk0).
  - intros p Hp. rewrite Fifo_CloseContext_entries.
    apply (walk_entries_cancelled_at (Fired e) sched [] (indexed_from 1 cs) 0 c p);
      [intros i d [] | exact Hp].
  - intros p Hp. rewrite Lifo_CloseContext_entries.
    change (stack (mkLifo (cs ++ [c]))) with (cs ++ [c]).
    rewrite indexed_snoc, rev_app_distr.
    apply (walk_entries_cancelled_at (Fired e) sched [] (rev (indexed cs))
             (List.length cs) c p); [intros i d [] | exact Hp].
  - intros H. split.
    + rewrite Fifo_uncancelled; [reflexivity|]. intros i _. apply H.
    + rewrite Lifo_uncancelled; [reflexivity|]. intros i _. apply H.
Qed.

Lemma first_entry_is_dispatched_witness :
  let a := mkCloser 1 (Some (Base (errorString "a"))) in
  let b := mkCloser 2 (Some (Base (errorString "b"))) in
  cancelled_at (Fifo.CloseContext (mkFifo [a; b]) (Fired Canceled)
                  (fun _ => caseDone NotStarted)) (Fired Canceled) [0] []
  /\ cancelled_at (Lifo.CloseContext (mkLifo [b; a]) (Fired Canceled)
                     (fun _ => caseDone NotStarted)) (Fired Canceled) [1] [].
Proof.
  intros a b.
  destruct (first_entry_is_dispatched [b] a Canceled (fun _ => caseDone NotStarted))
    as (_ & _ & F & L & _).
  split; [exact (F NotStarted eq_refl) | exact (L NotStarted eq_refl)].
Defined.

(** ** The concurrent strategy *)

Section GroupClose.

Variables (g : Group) (ctx : Context).

Lemma mem_In (i : nat) (l : list nat) : Group.mem i l = true <-> In i l.
Proof.
  unfold Group.mem. rewrite existsb_exists. split.
  - intros (x & Hx & E). apply Nat.eqb_eq in E. now subst.
  - intros H. exists i. split; [assumption | apply Nat.eqb_refl].
Qed.

Lemma mem_not_In (i : nat) (l : list nat) : Group.mem i l = false <-> ~ In i l.
Proof.
  rewrite <- mem_In. destruct (Group.mem i l); split; congruence.
Qed.

Lemma record_outcome (c : Closer) (errs : list error) :
  Group.record c errs = errs ++ Group.record c [].
Proof.
  unfold Group.record. destruct (Close c); [reflexivity | now rewrite app_nil_r].
Qed.

Lemma init_inv : Group_inv g ctx (Group.init g ctx).
Proof.
  unfold Group_inv, Group.init. simpl. repeat split.
  - constructor.
  - intros i [].
  - intros i [].
  - destruct ctx; simpl; congruence.
Qed.

Lemma step_inv (s s' : Group.state) (e : Group.event) :
  Group_inv g ctx s -> Group.step g ctx s e = Some s' -> Group_inv g ctx s'.
Proof.
  intros (Hsp & Hnd & Hlt & Herrs & Hres & Hfired) Hstep.
  destruct e as [i| |i]; simpl in Hstep.
  - destruct (nth_error (closers g) i) as [c|] eqn:Hc; [|discriminate].
    destruct (Group.mem i (Group.finished s)) eqn:Hm; [discriminate|].
    injection Hstep as <-. apply mem_not_In in Hm.
    unfold Group_inv. simpl. repeat split; try assumption.
    + apply NoDup_app; [assumption | repeat constructor; intros [] | ].
      intros x Hx [<-|[]]. contradiction.
    + intros j Hj. apply in_app_iff in Hj as [Hj|[<-|[]]]; [auto|].
      apply nth_error_Some. congruence.
    + rewrite flat_map_app, <- Herrs. simpl. rewrite app_nil_r.
      unfold outcome. rewrite Hc. apply record_outcome.
    + intros j Hj. destruct (Hres j Hj) as [H|H]; [now left | right].
      apply in_app_iff. now left.
  - destruct (Done ctx && negb (Group.fired s)) eqn:Hd; [|discriminate].
    injection Hstep as <-. apply andb_true_iff in Hd as [Hd _].
    unfold Group_inv. simpl. repeat split; auto.
  - destruct (Group.mem i (Group.spawned s) && negb (Group.mem i (Group.resolved s))
              && (Group.fired s || Group.mem i (Group.finished s))) eqn:Hd;
      [|discriminate].
    injection Hstep as <-.
    apply andb_true_iff in Hd as [_ Hd]. apply orb_true_iff in Hd.
    unfold Group_inv. simpl. repeat split; try assumption.
    intros j Hj. apply in_app_iff in Hj as [Hj|[<-|[]]]; [auto|].
    destruct Hd as [Hd|Hd]; [now left | right; now apply mem_In].
Qed.

Lemma run_inv (evs : list Group.event) (s s' : Group.state) :
  Group_inv g ctx s -> Group.run g ctx evs s = Some s' -> Group_inv g ctx s'.
Proof.
  revert s. induction evs as [|e evs IH]; intros s Hinv Hrun; simpl in Hrun.
  - now injection Hrun as <-.
  - destruct (Group.step g ctx s e) as [s1|] eqn:Hs; [|discriminate].
    eapply IH; [eapply step_inv|]; eassumption.
Qed.

(** Without a [Fire] event the signal state does not change. *)
Lemma run_fired (evs : list Group.event) (s s' : Group.state) :
  ~ In Group.Fire evs -> Group.run g ctx evs s = Some s' ->
  Group.fired s' = Group.fired s.
Proof.
  revert s. induction evs as [|e evs IH]; intros s Hno Hrun; simpl in Hrun.
  - now injection Hrun as <-.
  - destruct (Group.step g ctx s e) as [s1|] eqn:Hs; [|discriminate].
    rewrite (IH s1); [|intros H; apply Hno; now right | assumption].
    destruct e as [i| |i]; simpl in Hs.
    + destruct (nth_error (closers g) i); [|discriminate].
      destruct (Group.mem i (Group.finished s)); [discriminate|].
      now injection Hs as <-.
    + exfalso. apply Hno. now left.
    + destruct (_ && _ && _); [|discriminate]. now injection Hs as <-.
Qed.

(** When [wg.Wait()] returns, every wait leg has resolved. *)
Lemma waited_all (s : Group.state) :
  Group.spawned s = seq 0 (List.length (closers g)) ->
  Group.waited s = true ->
  forall i, i < List.length (closers g) -> In i (Group.resolved s).
Proof.
  unfold Group.waited. intros Hsp Hw i Hi.
  rewrite forallb_forall in Hw. apply mem_In, Hw.
  rewrite Hsp. apply in_seq. lia.
Qed.

Lemma CloseContext_inv (evs : list Group.event) (r : error) (s : Group.state) :
  Group.CloseContext g ctx evs = Some (r, s) ->
  Group.run g ctx evs (Group.init g ctx) = Some s
  /\ Group.waited s = true
  /\ r = multierr.Combine (Group.errs s)
  /\ Group_inv g ctx s.
Proof.
  unfold Group.CloseContext. intros H.
  destruct (Group.run g ctx evs (Group.init g ctx)) as [s1|] eqn:Hrun; [|discriminate].
  destruct (Group.waited s1) eqn:Hw; [|discriminate].
  injection H as <- <-. repeat split; try assumption.
  all: eapply run_inv; [apply init_inv | eassumption].
Qed.

Lemma outcome_In (i : nat) (e : error) :
  In e (outcome g i) ->
  exists c v, nth_error (closers g) i = Some c /\ Close c = Some v /\ e = Some v.
Proof.
  unfold outcome, Group.record.
  destruct (nth_error (closers g) i) as [c|]; [|intros []].
  destruct (Close c) as [v|] eqn:Hv; [|intros []].
  intros [<-|[]]. now exists c, v.
Qed.

Lemma mem_seq_next (a : nat) : Group.mem a (seq 0 a) = false.
Proof. apply mem_not_In. rewrite in_seq. lia. Qed.

(** The wait legs [a, ..., a+m-1] resolve one after the other, once
    the signal fired or all units finished. *)
Lemma run_Resolve_all (m a : nat) (s : Group.state) :
  Group.spawned s = seq 0 (List.length (closers g)) ->
  a + m <= List.length (closers g) ->
  Group.resolved s = seq 0 a ->
  Group.fired s = true
  \/ (forall i, i < List.length (closers g) -> In i (Group.finished s)) ->
  Group.run g ctx (map Group.Resolve (seq a m)) s
  = Some (Group.mkState (Group.spawned s) (Group.finished s) (Group.errs s)
                        (Group.fired s) (seq 0 (a + m))).
Proof.
  revert a s. induction m as [|m IH]; intros a s Hsp Hle Hres Hok.
  - simpl. rewrite Nat.add_0_r, <- Hres. now destruct s.
  - simpl.
    assert (E : Group.mem a (Group.spawned s) && negb (Group.mem a (Group.resolved s))
                && (Group.fired s || Group.mem a (Group.finished s)) = true).
    { rewrite Hres, mem_seq_next. simpl. rewrite andb_true_r.
      apply andb_true_iff. split.
      - apply mem_In. rewrite Hsp, in_seq. lia.
      - destruct Hok as [->|Hall]; [reflexivity|].
        apply orb_true_iff. right. apply mem_In, Hall. lia. }
    rewrite E, IH.
    + cbn [Group.spawned Group.finished Group.errs Group.fired].
      now rewrite Nat.add_succ_r.
    + assumption.
    + lia.
    + cbn [Group.resolved]. now rewrite Hres, <- seq_S.
    + assumption.
Qed.

(** The units [a, ..., a+m-1] finish one after the other. *)
Lemma run_Finish_all (m a : nat) (s : Group.state) :
  a + m <= List.length (closers g) ->
  Group.finished s = seq 0 a ->
  exists errs',
    Group.run g ctx (map Group.Finish (seq a m)) s
    = Some (Group.mkState (Group.spawned s) (seq 0 (a + m)) errs'
                          (Group.fired s) (Group.resolved s)).
Proof.
  revert a s. induction m as [|m IH]; intros a s Hle Hfin.
  - exists (Group.errs s). simpl. rewrite Nat.add_0_r, <- Hfin. now destruct s.
  - simpl. destruct (nth_error (closers g) a) as [c|] eqn:Hc.
    2: { apply nth_error_None in Hc. lia. }
    rewrite Hfin, mem_seq_next.
    edestruct (IH (S a)) as [errs' ->]; [| |exists errs'].
    + lia.
    + cbn [Group.finished]. now rewrite <- seq_S.
    + cbn [Group.spawned Group.fired Group.resolved]. now rewrite Nat.add_succ_r.
Qed.

Lemma waited_seq (s : Group.state) (n : nat) :
  Group.spawned s = seq 0 n -> Group.resolved s = seq 0 n -> Group.waited s = true.
Proof.
  intros Hsp Hres. unfold Group.waited. rewrite Hsp, Hres.
  apply forallb_forall. intros i Hi. now apply mem_In.
Qed.

Lemma run_app (xs ys : list Group.event) (s : Group.state) :
  Group.run g ctx (xs ++ ys) s
  = match Group.run g ctx xs s with
    | Some s' => Group.run g ctx ys s'
    | None => None
    end.
Proof.
  revert s. induction xs as [|e xs IH]; intros s; simpl; [reflexivity|].
  destruct (Group.step g ctx s e); [apply IH | reflexivity].
Qed.



End GroupClose.



(** ** Completeness of the aggregate *)

Section Completeness.

Lemma aggregate_reports (cs : list Closer) : reports (aggregate cs None) cs.
Proof.
  split.
  - rewrite aggregate_nil_iff. tauto.
  - intros x v Hin Hv.
    destruct (flat_map_split (fun c => Errors (Close c)) cs x Hin) as (pre & post & E).
    apply (Error_contains _ pre post). rewrite aggregate_Errors, E, Hv. reflexivity.
Qed.

Lemma reports_rev (r : error) (cs : list Closer) : reports r (rev cs) -> reports r cs.
Proof.
  intros [H1 H2]. split.
  - rewrite H1. split; intros H x Hx; apply H.
    + exact (proj1 (in_rev cs x) Hx).
    + exact (proj2 (in_rev cs x) Hx).
  - intros x v Hx. apply H2. exact (proj1 (in_rev cs x) Hx).
Qed.

(** A group close no wait leg of which resolved by the signal. *)
Lemma Group_reports (g : Group) (ctx : Context) (evs : list Group.event)
    (r : error) (s : Group.state) :
  (forall e, ctx <> Fired e) -> ~ In Group.Fire evs ->
  Group.CloseContext g ctx evs = Some (r, s) ->
  reports r (closers g).
Proof.
  intros Hctx Hno H.
  apply CloseContext_inv in H as (Hrun & Hw & -> & Hsp & _ & _ & Herrs & Hres & _).
  assert (Hf : Group.fired s = false).
  { rewrite (run_fired g ctx evs _ s Hno Hrun). destruct ctx; try reflexivity.
    now destruct (Hctx err). }
  assert (Hall : forall i c, nth_error (closers g) i = Some c -> In i (Group.finished s)).
  { intros i c Hc.
    assert (Hi : i < List.length (closers g)) by (apply nth_error_Some; congruence).
    destruct (Hres i (waited_all g s Hsp Hw i Hi)) as [F|F]; [congruence | exact F]. }
  split.
  - rewrite Combine_nil_iff, Herrs. split.
    + intros H x Hx. apply In_nth_error in Hx as [i Hi].
      destruct (Close x) as [v|] eqn:Hv; [|reflexivity].
      specialize (H (Some v)). apply H. apply in_flat_map.
      exists i. split; [eapply Hall; eassumption|].
      unfold outcome, Group.record. rewrite Hi, Hv. now left.
    + intros H e He. apply in_flat_map in He as (i & _ & He).
      apply outcome_In in He as (c & v & Hc & Hv & ->).
      rewrite (H c) in Hv; [discriminate | eapply nth_error_In; eassumption].
  - intros x v Hx Hv. apply In_nth_error in Hx as [i Hi].
    destruct (flat_map_split (outcome g) (Group.finished s) i (Hall i x Hi))
      as (pre & post & E).
    apply (Error_contains _ (flat_map Errors pre) (flat_map Errors post)).
    rewrite Errors_Combine, Herrs, E, !flat_map_app.
    unfold outcome, Group.record. rewrite Hi, Hv. simpl. now rewrite app_nil_r.
Qed.

(** A group close returns when all units finish and all wait legs
    resolve, whatever the context. *)
Lemma Group_returns (g : Group) (ctx : Context) :
  exists r s,
    Group.CloseContext g ctx
      (map Group.Finish (seq 0 (List.length (closers g)))
       ++ map Group.Resolve (seq 0 (List.length (closers g))))
    = Some (r, s).
Proof.
  unfold Group.CloseContext. rewrite run_app.
  destruct (run_Finish_all g ctx (List.length (closers g)) 0 (Group.init g ctx))
    as [errs' ->]; [lia | reflexivity |].
  rewrite run_Resolve_all.
  - erewrite waited_seq; [do 2 eexists; reflexivity | reflexivity | reflexivity].
  - reflexivity.
  - simpl. lia.
  - reflexivity.
  - right. intros i Hi. simpl. apply in_seq. lia.
Qed.

End Completeness.

(** C5.  A close of any strategy that observes no cancellation
    returns nil exactly when every entry closed without failure (so a
    strategy without entries returns nil, and spawns nothing), and the
    text of what it returns shows the text of every entry's failure.
    For every context that had not fired before the call such a close
    exists. *)
Theorem close_reports_every_failure (c : Closure) (ctx : Context) :
  (forall sc r d,
      quiet c ctx sc ->
      Closure_CloseContext c ctx sc = Some (r, d) ->
      (r = None <-> forall x, In x (entries c) -> Close x = None)
      /\ (entries c = [] -> r = None /\ d = [])
      /\ (forall x v, In x (entries c) -> Close x = Some v ->
           contains (Error r) (errval_Error v)))
  /\ ((forall e, ctx <> Fired e) ->
      exists sc r d, quiet c ctx sc /\ Closure_CloseContext c ctx sc = Some (r, d)).
Proof.
  split.
  - intros sc r d Hq H.
    assert (R : reports r (entries c) /\ (entries c = [] -> d = [])).
    { destruct c as [f|l|g]; simpl in *.
      - rewrite (Fifo_uncancelled f ctx (races sc) Hq) in H. injection H as <- <-.
        split; [apply aggregate_reports | now intros ->].
      - rewrite (Lifo_uncancelled l ctx (races sc) Hq) in H. injection H as <- <-.
        split; [apply reports_rev, aggregate_reports | now intros ->].
      - destruct (Group.CloseContext g ctx (events sc)) as [[r' s]|] eqn:E; [|discriminate].
        injection H as <- <-. destruct Hq as [Hctx Hno]. split.
        + eapply Group_reports; eassumption.
        + apply CloseContext_inv in E as (_ & _ & _ & Hsp & _).
          intros E0. now rewrite Hsp, E0. }
    destruct R as [[R1 R2] R3]. split; [exact R1|]. split; [|exact R2].
    intros E. split; [|auto]. apply R1. rewrite E. intros x [].
  - intros Hctx. destruct c as [f|l|g].
    + exists (mkScheduling (fun _ => caseNext) []). simpl.
      destruct (Fifo.CloseContext f ctx (fun _ => caseNext)) as [r w].
      exists r, (dispatched w). split; [|reflexivity].
      intros i _. unfold select. now destruct (Done ctx).
    + exists (mkScheduling (fun _ => caseNext) []). simpl.
      destruct (Lifo.CloseContext l ctx (fun _ => caseNext)) as [r w].
      exists r, (dispatched w). split; [|reflexivity].
      intros i _. unfold select. now destruct (Done ctx).
    + destruct (Group_returns g ctx) as (r & s & E).
      exists (mkScheduling (fun _ => caseNext)
                (map Group.Finish (seq 0 (List.length (closers g)))
                 ++ map Group.Resolve (seq 0 (List.length (closers g))))).
      exists r, (Group.spawned s). simpl. rewrite E. split; [|reflexivity].
      split; [exact Hctx|]. intros Hin.
      apply in_app_iff in Hin as [Hin|Hin]; apply in_map_iff in Hin as (i & Hi & _);
        discriminate.
Qed.

Lemma close_reports_every_failure_witness :
  let g := GroupClosure (mkGroup [mkCloser 1 None;
                                  mkCloser 2 (Some (Base (errorString "closer error")));
                                  mkCloser 3 None]) in
  let r := Some (Base (errorString "closer error")) in
  (r = None <-> forall x, In x (entries g) -> Close x = None)
  /\ (entries g = [] -> r = None /\ [0; 1; 2] = [])
  /\ (forall x v, In x (entries g) -> Close x = Some v ->
       contains (Error r) (errval_Error v)).
Proof.
  intros g r.
  apply (proj1 (close_reports_every_failure g Background)
           (mkScheduling (fun _ => caseNext)
              [Group.Finish 0; Group.Resolve 0; Group.Finish 2; Group.Finish 1;
               Group.Resolve 1; Group.Resolve 2])
           r [0; 1; 2]).
  - split; [discriminate|]. simpl. intros H.
    repeat (destruct H as [H|H]; [discriminate|]). exact H.
  - reflexivity.
Defined.

(** ** Context association *)

Section Association.

Import context.

Lemma nth_error_alloc (h : heap) (n : node) (a : nat) :
  a < List.length h -> nth_error (h ++ [n]) a = nth_error h a.
Proof. intros H. now apply nth_error_app1. Qed.

Lemma nth_error_alloc_new (h : heap) (n : node) :
  nth_error (h ++ [n]) (List.length h) = Some n.
Proof. now rewrite nth_error_app2, Nat.sub_diag. Qed.

(** More fuel than the address does not change the walk. *)
Lemma value_fuel (h : heap) (k : key) :
  wf h -> forall f1 f2 c, c < f1 -> c < f2 -> value h f1 c k = value h f2 c k.
Proof.
  intros Hwf. induction f1 as [|f1 IH]; intros f2 c H1 H2; [lia|].
  destruct f2 as [|f2]; [lia|]. simpl.
  destruct (nth_error h c) as [[|par k' val|par]|] eqn:Hc; try reflexivity.
  - destruct (key_eqb k k'); [reflexivity|].
    assert (par < c) by (eapply Hwf; [exact Hc | reflexivity]).
    apply IH; lia.
  - assert (par < c) by (eapply Hwf; [exact Hc | reflexivity]).
    apply IH; lia.
Qed.

Lemma value_S (h : heap) (fuel c : nat) (k : key) :
  value h (S fuel) c k
  = match nth_error h c with
    | Some (valueCtx parent k' val) =>
        if key_eqb k k' then val else value h fuel parent k
    | Some (cancelCtx parent) => value h fuel parent k
    | Some backgroundCtx | None => nilAny
    end.
Proof. reflexivity. Qed.

(** One step of the walk, from an object to its parent. *)
Lemma Value_valueCtx (h : heap) (c par : nat) (k k' : key) (val : any) :
  wf h -> nth_error h c = Some (valueCtx par k' val) ->
  Value h c k = if key_eqb k k' then val else Value h par k.
Proof.
  intros Hwf Hc. unfold Value. rewrite value_S, Hc.
  destruct (key_eqb k k'); [reflexivity|].
  assert (par < c) by (eapply Hwf; [exact Hc | reflexivity]).
  apply value_fuel; [assumption | lia | lia].
Qed.

Lemma Value_cancelCtx (h : heap) (c par : nat) (k : key) :
  wf h -> nth_error h c = Some (cancelCtx par) -> Value h c k = Value h par k.
Proof.
  intros Hwf Hc. unfold Value. rewrite value_S, Hc.
  assert (par < c) by (eapply Hwf; [exact Hc | reflexivity]).
  apply value_fuel; [assumption | lia | lia].
Qed.

Lemma Value_backgroundCtx (h : heap) (c : nat) (k : key) :
  nth_error h c = Some backgroundCtx -> Value h c k = nilAny.
Proof. intros Hc. unfold Value. simpl. now rewrite Hc. Qed.

Lemma key_eqb_neq (k : key) : k <> ctxKey -> key_eqb ctxKey k = false.
Proof. destruct k; [congruence | reflexivity]. Qed.

(** Allocation leaves every walk from an existing object as it was. *)
Lemma value_alloc (h : heap) (n : node) (k : key) :
  wf h -> forall fuel c, c < List.length h ->
  value (h ++ [n]) fuel c k = value h fuel c k.
Proof.
  intros Hwf. induction fuel as [|fuel IH]; intros c Hc; [reflexivity|].
  simpl. rewrite nth_error_alloc by assumption.
  destruct (nth_error h c) as [[|par k' val|par]|] eqn:E; try reflexivity.
  - destruct (key_eqb k k'); [reflexivity|].
    assert (par < c) by (eapply Hwf; [exact E | reflexivity]).
    apply IH. lia.
  - assert (par < c) by (eapply Hwf; [exact E | reflexivity]).
    apply IH. lia.
Qed.

(** Allocating a child of an existing object keeps the store
    well-formed. *)
Lemma wf_alloc (h : heap) (n : node) :
  wf h -> (forall p, parent_of n = Some p -> p < List.length h) -> wf (h ++ [n]).
Proof.
  intros Hwf Hn c m p Hc Hp.
  destruct (Nat.lt_ge_cases c (List.length h)) as [Hlt|Hge].
  - rewrite nth_error_alloc in Hc by assumption. eapply Hwf; eassumption.
  - assert (c = List.length h).
    { assert (c < List.length (h ++ [n])) by (apply nth_error_Some; congruence).
      rewrite length_app in *. simpl in *. lia. }
    subst c. rewrite nth_error_alloc_new in Hc. injection Hc as <-.
    now apply Hn.
Qed.

(** Steps other than an association under [ctxKey] do not change
    what the key is bound to. *)
Lemma Value_descends_plain (h : heap) (a d : nat) :
  wf h -> descends_plain h a d -> Value h d ctxKey = Value h a ctxKey.
Proof.
  intros Hwf H. induction H as [|d par k val Hd Hk _ IH|d par Hd _ IH].
  - reflexivity.
  - rewrite (Value_valueCtx h d par ctxKey k val Hwf Hd), key_eqb_neq by assumption.
    exact IH.
  - rewrite (Value_cancelCtx h d par ctxKey Hwf Hd). exact IH.
Qed.

Lemma Value_unassociated (h : heap) (c : nat) :
  wf h -> unassociated h c -> Value h c ctxKey = nilAny.
Proof.
  intros Hwf H. induction H as [c Hc|c par k val Hc Hk _ IH|c par Hc _ IH].
  - now apply Value_backgroundCtx.
  - rewrite (Value_valueCtx h c par ctxKey k val Hwf Hc), key_eqb_neq by assumption.
    exact IH.
  - rewrite (Value_cancelCtx h c par ctxKey Hwf Hc). exact IH.
Qed.

(** The object [ClosureToContext] allocates. *)
Lemma Value_attached (h : heap) (par : nat) (val : any) (ext : heap) :
  Value ((h ++ [valueCtx par ctxKey val]) ++ ext) (List.length h) ctxKey = val.
Proof.
  unfold Value. rewrite value_S, nth_error_app1, nth_error_alloc_new.
  - reflexivity.
  - rewrite length_app. simpl. lia.
Qed.

Lemma wfb_wf (h : heap) : wfb h = true -> wf h.
Proof.
  unfold wfb. rewrite forallb_forall. intros H c n p Hc Hp.
  assert (Hlt : c < List.length h) by (apply nth_error_Some; congruence).
  specialize (H c). rewrite Hc, Hp in H. apply Nat.ltb_lt, H, in_seq. lia.
Qed.

End Association.

(** C8, as stated, fails for a descendant that carries an association
    of its own: attaching instance 2 to the context that carries
    instance 1 gives a descendant whose lookup returns instance 2. *)
Lemma lookup_in_descendant_may_be_shadowed :
  ~ (forall (h h2 : context.heap) (ctx p d : nat),
        context.wf h2 -> ctx < List.length h ->
        (exists ext, h2 = fst (ClosureToContext h ctx (Some p)) ++ ext) ->
        context.descends h2 (snd (ClosureToContext h ctx (Some p))) d ->
        ClosureFromContext h2 d = (Some p, true)).
Proof.
  intros H.
  pose (h := [context.backgroundCtx]).
  pose (R1 := ClosureToContext h 0 (Some 1)).
  pose (R2 := ClosureToContext (fst R1) (snd R1) (Some 2)).
  specialize (H h (fst R2) 0 1 (snd R2)).
  assert (W : context.wf (fst R2)) by (apply wfb_wf; reflexivity).
  assert (E : ClosureFromContext (fst R2) (snd R2) = (Some 1, true)).
  { apply H.
    - exact W.
    - simpl. lia.
    - exists [context.valueCtx 1 context.ctxKey (context.closureAny 2)]. reflexivity.
    - eapply context.descends_step; [reflexivity | reflexivity | apply context.descends_self]. }
  discriminate E.
Qed.

(** C8, amended.  Looking up the context [ClosureToContext] returns
    finds the attached instance, and so does a lookup from any context
    derived from it by steps that attach no strategy again, in any later
    store; a lookup from a context none of whose ancestors carries an
    association finds nothing. *)
Theorem lookup_after_attach (h : context.heap) (ctx p : nat) :
  ClosureFromContext (fst (ClosureToContext h ctx (Some p)))
                     (snd (ClosureToContext h ctx (Some p))) = (Some p, true)
  /\ (forall h2 d,
       context.wf h2 ->
       (exists ext, h2 = fst (ClosureToContext h ctx (Some p)) ++ ext) ->
       context.descends_plain h2 (snd (ClosureToContext h ctx (Some p))) d ->
       ClosureFromContext h2 d = (Some p, true))
  /\ (forall h0 c,
       context.wf h0 -> context.unassociated h0 c ->
       ClosureFromContext h0 c = (None, false)).
Proof.
  split; [|split].
  - unfold ClosureFromContext, ClosureToContext, context.WithValue, context.alloc.
    cbn [fst snd].
    pose proof (Value_attached h ctx (context.closureAny p) []) as E.
    rewrite app_nil_r in E. now rewrite E.
  - intros h2 d Hwf [ext ->] Hd. unfold ClosureFromContext.
    rewrite (Value_descends_plain _ _ _ Hwf Hd).
    unfold ClosureToContext, context.WithValue, context.alloc. cbn [fst snd].
    now rewrite Value_attached.
  - intros h0 c Hwf Hc. unfold ClosureFromContext.
    now rewrite (Value_unassociated _ _ Hwf Hc).
Qed.

Lemma lookup_after_attach_witness :
  let R := ClosureToContext [context.backgroundCtx] 0 (Some 1) in
  let h2 := fst R ++ [context.cancelCtx 1; context.valueCtx 2 (context.otherKey 5) (context.otherAny 9)] in
  ClosureFromContext h2 3 = (Some 1, true)
  /\ ClosureFromContext [context.backgroundCtx; context.cancelCtx 0] 1 = (None, false).
Proof.
  intros R h2.
  destruct (lookup_after_attach [context.backgroundCtx] 0 1) as (_ & D & U).
  split.
  - apply D.
    + apply wfb_wf. reflexivity.
    + now exists [context.cancelCtx 1;
                  context.valueCtx 2 (context.otherKey 5) (context.otherAny 9)].
    + eapply context.plain_value; [reflexivity | discriminate |].
      eapply context.plain_cancel; [reflexivity |]. apply context.plain_self.
  - apply U.
    + apply wfb_wf. reflexivity.
    + eapply context.unassoc_cancel; [reflexivity|].
      apply context.unassoc_root. reflexivity.
Defined.

(** C10.  [ClosureToContext] allocates a new context object, derived
    from [ctx], and changes no existing one: every object of the store
    is as before, and a lookup from any existing context, [ctx] among
    them, returns what it returned before; it finds nothing when [ctx]
    had no association. *)
Theorem attach_leaves_context_unchanged (h : context.heap) (ctx : nat)
    (closure : ClosureRef) :
  context.wf h -> ctx < List.length h ->
  snd (ClosureToContext h ctx closure) = List.length h
  /\ snd (ClosureToContext h ctx closure) <> ctx
  /\ context.descends (fst (ClosureToContext h ctx closure)) ctx
                       (snd (ClosureToContext h ctx closure))
  /\ context.wf (fst (ClosureToContext h ctx closure))
  /\ (forall a, a < List.length h ->
       nth_error (fst (ClosureToContext h ctx closure)) a = nth_error h a)
  /\ (forall a, a < List.length h ->
       ClosureFromContext (fst (ClosureToContext h ctx closure)) a
       = ClosureFromContext h a)
  /\ (context.unassociated h ctx ->
       ClosureFromContext (fst (ClosureToContext h ctx closure)) ctx = (None, false)).
Proof.
  intros Hwf Hctx.
  assert (F : forall a, a < List.length h ->
              ClosureFromContext (fst (ClosureToContext h ctx closure)) a
              = ClosureFromContext h a).
  { intros a Ha. unfold ClosureFromContext, context.Value.
    unfold ClosureToContext, context.WithValue, context.alloc. cbn [fst snd].
    rewrite value_alloc; [reflexivity | assumption | assumption]. }
  split; [reflexivity|]. split; [simpl; lia|]. split; [|split; [|split; [|split]]].
  - eapply context.descends_step;
      [apply nth_error_alloc_new | reflexivity | apply context.descends_self].
  - apply wf_alloc; [assumption|]. simpl. intros q Hq. injection Hq as <-. exact Hctx.
  - intros a Ha. now apply nth_error_alloc.
  - exact F.
  - intros U. rewrite (F ctx Hctx). unfold ClosureFromContext.
    now rewrite (Value_unassociated h ctx Hwf U).
Qed.

Lemma attach_leaves_context_unchanged_witness :
  let h := [context.backgroundCtx; context.valueCtx 0 context.ctxKey (context.closureAny 7)] in
  ClosureFromContext (fst (ClosureToContext h 1 (Some 8))) 1 = (Some 7, true)
  /\ ClosureFromContext (fst (ClosureToContext h 0 (Some 8))) 0 = (None, false).
Proof.
  intros h.
  assert (W : context.wf h) by (apply wfb_wf; reflexivity).
  split.
  - destruct (attach_leaves_context_unchanged h 1 (Some 8) W) as (_ & _ & _ & _ & _ & F & _).
    + simpl. lia.
    + rewrite F; [reflexivity | simpl; lia].
  - destruct (attach_leaves_context_unchanged h 0 (Some 8) W) as (_ & _ & _ & _ & _ & _ & U).
    + simpl. lia.
    + apply U. apply context.unassoc_root. reflexivity.
Defined.

(** ** The package-level registry *)

Section Registry.

Import shutdown.

(** A pass spawns the closes of a prefix of its entries. *)
Lemma walk_entries_prefix (ctx : Context) (sched : schedule)
    (es : list (nat * Closer)) (w : walk) :
  exists m, dispatched (snd (walk_entries ctx sched es w))
            = dispatched w ++ map fst (firstn m es).
Proof.
  revert w. induction es as [|[i c] es IH]; intros w.
  - exists 0. simpl. now rewrite app_nil_r.
  - simpl. unfold iteration. destruct (select ctx (sched i)) as [|p].
    + destruct (IH (finish i c (spawn i w))) as [m ->].
      exists (S m). simpl. now rewrite <- app_assoc.
    + exists 1. cbn [snd]. rewrite partial_dispatched. simpl.
      now destruct es.
Qed.

Lemma NoDup_firstn {A} (m : nat) (l : list A) : NoDup l -> NoDup (firstn m l).
Proof.
  intros H. rewrite <- (firstn_skipn m l) in H. now apply NoDup_app_remove_r in H.
Qed.

Lemma In_firstn {A} (m : nat) (l : list A) (x : A) : In x (firstn m l) -> In x l.
Proof.
  intros H. rewrite <- (firstn_skipn m l). apply in_app_iff. now left.
Qed.

(** A strategy spawns the close of a registration at most once, and
    of registrations only. *)
Lemma Closure_dispatch (c : Closure) (ctx : Context) (sc : scheduling)
    (r : error) (d : list nat) :
  Closure_CloseContext c ctx sc = Some (r, d) ->
  NoDup d /\ forall i, In i d -> i < List.length (entries c).
Proof.
  destruct c as [f|l|g]; simpl.
  - rewrite Fifo_CloseContext_entries.
    destruct (walk_entries_prefix ctx (races sc) (indexed (queue f)) walk0) as [m E].
    destruct (walk_entries ctx (races sc) (indexed (queue f)) walk0) as [r' w].
    intros H. injection H as <- <-. simpl in E. rewrite E, <- firstn_map, indexed_fst.
    split.
    + apply NoDup_firstn, seq_NoDup.
    + intros i Hi. apply In_firstn, in_seq in Hi. lia.
  - rewrite Lifo_CloseContext_entries.
    destruct (walk_entries_prefix ctx (races sc) (rev (indexed (stack l))) walk0) as [m E].
    destruct (walk_entries ctx (races sc) (rev (indexed (stack l))) walk0) as [r' w].
    intros H. injection H as <- <-. simpl in E.
    rewrite E, <- firstn_map, map_rev, indexed_fst.
    split.
    + apply NoDup_firstn, NoDup_rev, seq_NoDup.
    + intros i Hi. apply In_firstn, in_rev, in_seq in Hi. lia.
  - destruct (Group.CloseContext g ctx (events sc)) as [[r' s]|] eqn:E; [|discriminate].
    intros H. injection H as <- <-.
    apply CloseContext_inv in E as (_ & _ & _ & -> & _).
    split; [apply seq_NoDup | intros i Hi; apply in_seq in Hi; lia].
Qed.

(** A close that is not cut short spawns the close of every
    registration. *)
Lemma Closure_dispatch_all (c : Closure) (k : call) (r : error) (d : list nat) :
  Closure_CloseContext c (call_ctx k) (call_sc k) = Some (r, d) ->
  undisturbed c k ->
  forall i, i < List.length (entries c) -> In i d.
Proof.
  destruct c as [f|l|g]; simpl.
  - intros H U. rewrite (Fifo_uncancelled f _ _ U) in H. injection H as <- <-.
    intros i Hi. apply in_seq. simpl. lia.
  - intros H U. rewrite (Lifo_uncancelled l _ _ U) in H. injection H as <- <-.
    intros i Hi. simpl. apply -> in_rev. apply in_seq. lia.
  - destruct (Group.CloseContext g (call_ctx k) (events (call_sc k))) as [[r' s]|] eqn:E;
      [|discriminate].
    intros H _. injection H as <- <-.
    apply CloseContext_inv in E as (_ & _ & _ & -> & _).
    intros i Hi. apply in_seq. lia.
Qed.

Lemma perform_CloseContext (k : call) (s : state) :
  perform k s = CloseContext (call_ctx k) (call_sc k) s.
Proof. now destruct k. Qed.

(** Once the guard has fired, a call does nothing and returns nil. *)
Lemma perform_late (k : call) (s : state) :
  once s = true -> perform k s = Some (None, s).
Proof.
  intros H. rewrite perform_CloseContext. unfold CloseContext. now rewrite H.
Qed.

Lemma perform_all_late (cs : list call) (s : state) :
  once s = true -> perform_all cs s = Some (repeat None (List.length cs), s).
Proof.
  intros H. induction cs as [|k cs IH]; [reflexivity|].
  simpl. now rewrite (perform_late k s H), IH.
Qed.

(** The first call runs the close of the strategy and fires the guard. *)
Lemma perform_first (k : call) (s s' : state) (r : error) :
  once s = false -> perform k s = Some (r, s') ->
  exists d,
    Closure_CloseContext (pkgClosure s) (call_ctx k) (call_sc k) = Some (r, d)
    /\ s' = mkState (pkgClosure s) true (S (runs s)) (issued s ++ d).
Proof.
  intros H. rewrite perform_CloseContext. unfold CloseContext. rewrite H.
  destruct (Closure_CloseContext (pkgClosure s) (call_ctx k) (call_sc k))
    as [[r' d]|]; [|discriminate].
  intros E. injection E as <- <-. now exists d.
Qed.

(** A sequence of calls is its first call followed by no-ops. *)
Lemma perform_all_first (k : call) (rest : list call) (s s' : state) (rs : list error) :
  once s = false -> perform_all (k :: rest) s = Some (rs, s') ->
  exists r, perform k s = Some (r, s')
            /\ rs = r :: repeat None (List.length rest).
Proof.
  intros H. simpl.
  destruct (perform k s) as [[r s1]|] eqn:E; [|discriminate].
  destruct (perform_first k s s1 r H E) as (d & _ & ->).
  rewrite perform_all_late by reflexivity.
  intros E'. injection E' as <- <-. now exists r.
Qed.

End Registry.

(** C6, as stated, fails: when the first package-level close is
    cancelled during its walk, the entries it did not reach are closed
    by no later call, because the guard has fired. *)
Lemma cancelled_first_close_skips_entries :
  ~ (forall (s0 s : shutdown.state) (cs : list shutdown.call) (rs : list error),
        shutdown.once s0 = false -> shutdown.runs s0 = 0 -> shutdown.issued s0 = [] ->
        cs <> [] ->
        shutdown.perform_all cs s0 = Some (rs, s) ->
        forall i, i < List.length (entries (shutdown.pkgClosure s0)) ->
                  count_occ Nat.eq_dec (shutdown.issued s) i = 1).
Proof.
  intros H.
  pose (s0 := shutdown.Append (mkCloser 2 None)
                (shutdown.Append (mkCloser 1 None) shutdown.start)).
  pose (cs := [shutdown.CallCloseContext (Fired Canceled)
                 (mkScheduling (fun _ => caseDone NotStarted) []);
               shutdown.CallClose (mkScheduling (fun _ => caseNext) [])]).
  specialize (H s0 (shutdown.mkState (shutdown.pkgClosure s0) true 1 [1]) cs
                [Some (Base Canceled); None]
                eq_refl eq_refl eq_refl ltac:(discriminate) eq_refl 0).
  simpl in H. assert (0 = 1) by (apply H; lia). discriminate.
Qed.

(** C6, amended.  Over any sequence of package-level close calls the
    close of the strategy runs at most once, the close of a
    registration is spawned at most once in total, and nothing else is
    closed; when the first call is not cut short by its signal, the
    close of every registration is spawned exactly once in total. *)
Theorem package_close_runs_once (s0 s : shutdown.state) (cs : list shutdown.call)
    (rs : list error) :
  shutdown.once s0 = false -> shutdown.runs s0 = 0 -> shutdown.issued s0 = [] ->
  shutdown.perform_all cs s0 = Some (rs, s) ->
  shutdown.runs s <= 1
  /\ (forall i, count_occ Nat.eq_dec (shutdown.issued s) i <= 1)
  /\ (forall i, In i (shutdown.issued s) ->
       i < List.length (entries (shutdown.pkgClosure s0)))
  /\ (forall k rest,
       cs = k :: rest -> undisturbed (shutdown.pkgClosure s0) k ->
       forall i, i < List.length (entries (shutdown.pkgClosure s0)) ->
                 count_occ Nat.eq_dec (shutdown.issued s) i = 1).
Proof.
  intros Honce Hruns Hiss H. destruct cs as [|k rest].
  - injection H as <- <-. rewrite Hruns, Hiss. repeat split; auto.
    + intros i []. 
    + discriminate.
  - destruct (perform_all_first k rest s0 s rs Honce H) as (r & Hk & _).
    destruct (perform_first k s0 s r Honce Hk) as (d & Hd & ->).
    destruct (Closure_dispatch _ _ _ _ _ Hd) as [Hnd Hlt].
    rewrite Hruns, Hiss. simpl. repeat split.
    + lia.
    + now apply NoDup_count_occ.
    + exact Hlt.
    + intros k' rest' E U i Hi. injection E as <- <-.
      apply NoDup_count_occ'; [exact Hnd|].
      eapply Closure_dispatch_all; eassumption.
Qed.

Lemma package_close_runs_once_witness :
  let s0 := shutdown.Append (mkCloser 2 (Some (Base (errorString "b"))))
              (shutdown.Append (mkCloser 1 None) shutdown.start) in
  let sc := mkScheduling (fun _ => caseNext) [] in
  let s := shutdown.mkState (shutdown.pkgClosure s0) true 1 [1; 0] in
  shutdown.runs s <= 1
  /\ (forall i, count_occ Nat.eq_dec (shutdown.issued s) i <= 1)
  /\ (forall i, In i (shutdown.issued s) ->
       i < List.length (entries (shutdown.pkgClosure s0)))
  /\ (forall k rest,
       [shutdown.CallClose sc; shutdown.CallCloseContext (Fired Canceled) sc] = k :: rest ->
       undisturbed (shutdown.pkgClosure s0) k ->
       forall i, i < List.length (entries (shutdown.pkgClosure s0)) ->
                 count_occ Nat.eq_dec (shutdown.issued s) i = 1).
Proof.
  intros s0 sc s.
  apply (package_close_runs_once s0 s
           [shutdown.CallClose sc; shutdown.CallCloseContext (Fired Canceled) sc]
           [Some (Base (errorString "b")); None]);
    reflexivity.
Defined.

(** C7, as stated, fails: the first package-level close returns the
    failure of the registered closer, the second returns nil. *)
Lemma late_close_differs_from_first :
  ~ (forall (s0 s : shutdown.state) (cs : list shutdown.call) (rs : list error),
        shutdown.once s0 = false ->
        shutdown.perform_all cs s0 = Some (rs, s) ->
        forall r r', hd_error rs = Some r -> In r' rs -> r' = r).
Proof.
  intros H.
  pose (s0 := shutdown.Append (mkCloser 1 (Some (Base (errorString "close error"))))
                (shutdown.SetPackageClosure (FifoClosure (mkFifo [])) shutdown.start)).
  pose (sc := mkScheduling (fun _ => caseNext) []).
  specialize (H s0 (shutdown.mkState (shutdown.pkgClosure s0) true 1 [0])
                [shutdown.CallClose sc; shutdown.CallClose sc]
                [Some (Base (errorString "close error")); None]
                eq_refl eq_refl
                (Some (Base (errorString "close error"))) None eq_refl).
  assert (E : None = Some (Base (errorString "close error")))
    by (apply H; simpl; auto).
  discriminate E.
Qed.

(** C7, amended.  The first package-level close call returns what the
    close of the strategy returned; every later call changes nothing
    and returns nil.  So the later callers receive the value of the
    first exactly when that value is nil. *)
Theorem late_package_close_returns_nil (s0 s : shutdown.state) (k : shutdown.call)
    (rest : list shutdown.call) (rs : list error) :
  shutdown.once s0 = false ->
  shutdown.perform_all (k :: rest) s0 = Some (rs, s) ->
  exists r,
    shutdown.perform k s0 = Some (r, s)
    /\ rs = r :: repeat None (List.length rest)
    /\ ((forall r', In r' rs -> r' = r) <-> (r = None \/ rest = [])).
Proof.
  intros Honce H.
  destruct (perform_all_first k rest s0 s rs Honce H) as (r & Hk & ->).
  exists r. repeat split; try assumption.
  - intros Hall. destruct rest as [|k' rest]; [now right | left].
    symmetry. apply Hall. simpl. auto.
  - intros [->| ->] r' [<-|Hin]; try reflexivity.
    + now apply repeat_spec in Hin.
    + destruct Hin.
Qed.

Lemma late_package_close_returns_nil_witness :
  let s0 := shutdown.Append (mkCloser 1 (Some (Base (errorString "close error"))))
              (shutdown.SetPackageClosure (FifoClosure (mkFifo [])) shutdown.start) in
  let sc := mkScheduling (fun _ => caseNext) [] in
  exists r,
    shutdown.perform (shutdown.CallClose sc) s0
    = Some (r, shutdown.mkState (shutdown.pkgClosure s0) true 1 [0])
    /\ [Some (Base (errorString "close error")); None; None]
       = r :: repeat None 2
    /\ ((forall r', In r' [Some (Base (errorString "close error")); None; None] -> r' = r)
        <-> (r = None \/ [shutdown.CallClose sc; shutdown.CallClose sc] = [])).
Proof.
  intros s0 sc.
  apply (late_package_close_returns_nil s0
           (shutdown.mkState (shutdown.pkgClosure s0) true 1 [0])
           (shutdown.CallClose sc) [shutdown.CallClose sc; shutdown.CallClose sc]
           [Some (Base (errorString "close error")); None; None]);
    reflexivity.
Defined.

(** * Further properties *)

(** ** Closing without a context *)

(** X1.  [Close()] of a [Fifo] or a [Lifo] cannot be cut short:
    whatever the scheduler does, it spawns the close of every entry,
    in registration order for a [Fifo] and in reverse order for a
    [Lifo], and returns their failures without any context error. *)
Theorem Close_walks_every_entry (cs : list Closer) (sched : schedule) :
  Fifo.Close (mkFifo cs) sched
  = (aggregate cs None,
     mkWalk (aggregate cs None) (seq 0 (List.length cs)) (seq 0 (List.length cs)))
  /\ Lifo.Close (mkLifo cs) sched
     = (aggregate (rev cs) None,
        mkWalk (aggregate (rev cs) None)
               (rev (seq 0 (List.length cs))) (rev (seq 0 (List.length cs))))
  /\ Errors (fst (Fifo.Close (mkFifo cs) sched))
     = flat_map (fun c => Errors (Close c)) cs
  /\ Errors (fst (Lifo.Close (mkLifo cs) sched))
     = flat_map (fun c => Errors (Close c)) (rev cs).
Proof.
  assert (U : forall n, uncancelled Background sched n) by (intros n i _; reflexivity).
  unfold Fifo.Close, Lifo.Close.
  rewrite (Fifo_uncancelled (mkFifo cs) Background sched (U _)).
  rewrite (Lifo_uncancelled (mkLifo cs) Background sched (U _)).
  cbn [queue stack fst]. rewrite !aggregate_Errors. now repeat split.
Qed.

Section GroupCloseWithoutContext.

Variable g : Group.

(** Under [context.Background()] the signal never fires. *)
Lemma Fire_disabled (s : Group.state) : Group.step g Background s Group.Fire = None.
Proof. reflexivity. Qed.

Lemma run_with_Fire (evs : list Group.event) (s : Group.state) :
  In Group.Fire evs -> Group.run g Background evs s = None.
Proof.
  intros H. apply in_split in H as (xs & ys & ->).
  rewrite run_app. destruct (Group.run g Background xs s); reflexivity.
Qed.

End GroupCloseWithoutContext.

(** X2.  [Close()] of a [Group] returns only when every unit has
    finished: the units that finished before the return are all the
    registrations, each once, in some order, and the outcome combines
    their failures in that order.  No execution contains a firing of
    the signal. *)
Theorem Group_Close_finishes_every_unit (g : Group) (evs : list Group.event)
    (r : error) (s : Group.state) :
  Group.Close g evs = Some (r, s) ->
  Permutation (Group.finished s) (seq 0 (List.length (closers g)))
  /\ Group.fired s = false
  /\ ~ In Group.Fire evs
  /\ r = multierr.Combine (flat_map (outcome g) (Group.finished s)).
Proof.
  unfold Group.Close. intros H.
  assert (Hno : ~ In Group.Fire evs).
  { intros Hin. unfold Group.CloseContext in H.
    now rewrite (run_with_Fire g evs _ Hin) in H. }
  apply CloseContext_inv in H as (Hrun & Hw & Hr & Hsp & Hnd & Hlt & Herrs & Hres & Hf).
  assert (F : Group.fired s = false).
  { destruct (Group.fired s); [|reflexivity]. now specialize (Hf eq_refl). }
  repeat split; try assumption.
  - apply NoDup_Permutation; [assumption | apply seq_NoDup |].
    intros i. rewrite in_seq. split.
    + intros Hi. specialize (Hlt i Hi). lia.
    + intros Hi. destruct (Hres i (waited_all g s Hsp Hw i ltac:(lia))) as [E|E];
        [congruence | exact E].
  - now rewrite <- Herrs.
Qed.

Lemma Group_Close_finishes_every_unit_witness :
  let g := mkGroup [mkCloser 1 (Some (Base (errorString "a")));
                    mkCloser 2 None;
                    mkCloser 3 (Some (Base (errorString "c")))] in
  let s := Group.mkState [0; 1; 2] [2; 0; 1]
             [Some (Base (errorString "c")); Some (Base (errorString "a"))]
             false [2; 1; 0] in
  Permutation (Group.finished s) [0; 1; 2]
  /\ Group.fired s = false
  /\ ~ In Group.Fire [Group.Finish 2; Group.Resolve 2; Group.Finish 0; Group.Finish 1;
                       Group.Resolve 1; Group.Resolve 0]
  /\ Some (multiError [errorString "c"; errorString "a"])
     = multierr.Combine (flat_map (outcome g) (Group.finished s)).
Proof.
  intros g s.
  apply (Group_Close_finishes_every_unit g
           [Group.Finish 2; Group.Resolve 2; Group.Finish 0; Group.Finish 1;
            Group.Resolve 1; Group.Resolve 0]
           (Some (multiError [errorString "c"; errorString "a"])) s).
  reflexivity.
Defined.

(** ** Registration *)

(** X3.  [callClose] keeps what [errs] held, in order, and puts the
    constituents of the new failure behind it; a close without
    failure leaves [errs] as it is, so [errs] stays nil exactly while
    no close has failed. *)
Theorem callClose_accumulates (c : Closer) (e : error) :
  Errors (callClose c e) = Errors e ++ Errors (Close c)
  /\ (Close c = None -> callClose c e = e)
  /\ (callClose c e = None <-> e = None /\ Close c = None).
Proof.
  split; [apply callClose_Errors|]. split; [|apply callClose_nil_iff].
  unfold callClose. now intros ->.
Qed.



(** X5.  A closer appended to a [Lifo] is closed first: a close that
    meets no cancellation spawns the close of the new entry, then
    those it spawned before the append, and the new entry's failure
    comes first among the constituents of the outcome. *)
Theorem Lifo_Append_closes_first (l : Lifo) (c : Closer) (ctx : Context)
    (sched : schedule) :
  uncancelled ctx sched (S (List.length (stack l))) ->
  fst (Lifo.CloseContext (Lifo.Append l c) ctx sched)
  = aggregate (rev (stack l)) (callClose c None)
  /\ Errors (fst (Lifo.CloseContext (Lifo.Append l c) ctx sched))
     = Errors (Close c) ++ Errors (fst (Lifo.CloseContext l ctx sched))
  /\ dispatched (snd (Lifo.CloseContext (Lifo.Append l c) ctx sched))
     = List.length (stack l) :: dispatched (snd (Lifo.CloseContext l ctx sched)).
Proof.
  intros U.
  assert (U' : uncancelled ctx sched (List.length (stack l)))
    by (intros i Hi; apply U; lia).
  assert (L : List.length (stack (Lifo.Append l c)) = S (List.length (stack l)))
    by (unfold Lifo.Append; cbn [stack]; rewrite length_app; simpl; lia).
  rewrite (Lifo_uncancelled l ctx sched U').
  rewrite (Lifo_uncancelled (Lifo.Append l c) ctx sched) by (now rewrite L).
  rewrite L. cbn [fst snd dispatched]. unfold Lifo.Append. cbn [stack].
  rewrite rev_app_distr. cbn [rev app].
  split; [reflexivity|]. split.
  - change (aggregate (c :: rev (stack l)) None)
      with (aggregate (rev (stack l)) (callClose c None)).
    rewrite !aggregate_Errors, callClose_Errors. reflexivity.
  - rewrite seq_S, rev_app_distr. reflexivity.
Qed.

Lemma Lifo_Append_closes_first_witness :
  let l := mkLifo [mkCloser 1 (Some (Base (errorString "a"))); mkCloser 2 None] in
  let c := mkCloser 3 (Some (Base (errorString "c"))) in
  let sched := fun _ => caseNext in
  fst (Lifo.CloseContext (Lifo.Append l c) Background sched)
  = aggregate (rev (stack l)) (callClose c None)
  /\ Errors (fst (Lifo.CloseContext (Lifo.Append l c) Background sched))
     = Errors (Close c) ++ Errors (fst (Lifo.CloseContext l Background sched))
  /\ dispatched (snd (Lifo.CloseContext (Lifo.Append l c) Background sched))
     = 2 :: dispatched (snd (Lifo.CloseContext l Background sched)).
Proof.
  intros l c sched.
  apply (Lifo_Append_closes_first l c Background sched).
  intros i _. reflexivity.
Defined.

(** ** Every way a walk can end *)

Section Outcomes.

Variables (ctx : Context) (sched : schedule).




(** A [Lifo] walk stopped at the entry in front of [post]. *)
Lemma Lifo_cancelled_at (pre post : list Closer) (c : Closer) (p : progress) :
  (forall i, List.length pre < i < List.length (pre ++ c :: post) ->
             select ctx (sched i) = caseNext) ->
  select ctx (sched (List.length pre)) = caseDone p ->
  cancelled_at (Lifo.CloseContext (mkLifo (pre ++ c :: post)) ctx sched) ctx
               (rev (seq (List.length pre) (S (List.length post))))
               (rev post ++ stored p c).
Proof.
  intros Hq Hk.
  pose proof (walk_entries_cancelled_at ctx sched
                (rev (indexed_from (S (List.length pre)) post))
                (rev (indexed_from 0 pre)) (List.length pre) c p) as C.
  rewrite !map_rev, indexed_from_fst, indexed_from_snd in C.
  rewrite Lifo_CloseContext_entries.
  change (stack (mkLifo (pre ++ c :: post))) with (pre ++ c :: post).
  unfold indexed. rewrite indexed_from_app, indexed_from_cons, rev_app_distr.
  change (rev ((0 + List.length pre, c) :: indexed_from (S (0 + List.length pre)) post))
    with (rev (indexed_from (S (List.length pre)) post) ++ [(List.length pre, c)]).
  rewrite <- app_assoc.
  apply C; [|exact Hk].
  intros i d Hin. apply in_rev, indexed_from_In in Hin. apply Hq.
  rewrite length_app. simpl. lia.
Qed.

End Outcomes.



(** ** Registration through the package *)

Section PackageRegistration.

Lemma entries_Closure_Append (c : Closure) (closer : Closer) :
  entries (Closure_Append c closer) = entries c ++ [closer].
Proof. now destruct c. Qed.

(** The package-level [Append] touches the strategy only. *)
Lemma appends_frame (cs : list Closer) (s : shutdown.state) :
  shutdown.once (appends cs s) = shutdown.once s
  /\ shutdown.runs (appends cs s) = shutdown.runs s
  /\ shutdown.issued (appends cs s) = shutdown.issued s
  /\ entries (shutdown.pkgClosure (appends cs s))
     = entries (shutdown.pkgClosure s) ++ cs.
Proof.
  revert s. induction cs as [|c cs IH]; intros s.
  - simpl. now rewrite app_nil_r.
  - change (appends (c :: cs) s) with (appends cs (shutdown.Append c s)).
    destruct (IH (shutdown.Append c s)) as (-> & -> & -> & ->).
    cbn [shutdown.Append shutdown.once shutdown.runs shutdown.issued shutdown.pkgClosure].
    rewrite entries_Closure_Append, <- app_assoc. now repeat split.
Qed.

Lemma appends_Lifo (cs : list Closer) (s : shutdown.state) (l : Lifo) :
  shutdown.pkgClosure s = LifoClosure l ->
  shutdown.pkgClosure (appends cs s) = LifoClosure (mkLifo (stack l ++ cs)).
Proof.
  revert s l. induction cs as [|c cs IH]; intros s l H.
  - simpl. rewrite app_nil_r, H. now destruct l.
  - change (appends (c :: cs) s) with (appends cs (shutdown.Append c s)).
    rewrite (IH _ (Lifo.Append l c)).
    + unfold Lifo.Append. cbn [stack]. now rewrite <- app_assoc.
    + cbn [shutdown.Append shutdown.pkgClosure]. now rewrite H.
Qed.


End PackageRegistration.


(** X9.  Once the guard has fired nothing is closed any more: whatever
    is then registered with [Append], whichever strategy is installed
    with [SetPackageClosure], every later close operation returns nil
    and spawns no close. *)
Theorem late_operations_close_nothing (os : list operation) (s : shutdown.state) :
  shutdown.once s = true ->
  exists rs s',
    operate_all os s = Some (rs, s')
    /\ (forall r, In r rs -> r = None)
    /\ shutdown.once s' = true
    /\ shutdown.runs s' = shutdown.runs s
    /\ shutdown.issued s' = shutdown.issued s.
Proof.
  revert s. induction os as [|o os IH]; intros s H.
  - exists [], s. repeat split; auto. intros r [].
  - assert (S1 : exists rs1 s1,
               operate o s = Some (rs1, s1)
               /\ (forall r, In r rs1 -> r = None)
               /\ shutdown.once s1 = true
               /\ shutdown.runs s1 = shutdown.runs s
               /\ shutdown.issued s1 = shutdown.issued s).
    { destruct o as [c|closer|k]; simpl.
      - eexists _, _. split; [reflexivity|]. repeat split; auto. intros r [].
      - eexists _, _. split; [reflexivity|]. repeat split; auto. intros r [].
      - rewrite (perform_late k s H). exists [None], s.
        repeat split; auto. intros r [<-|[]]. reflexivity. }
    destruct S1 as (rs1 & s1 & E1 & N1 & O1 & R1 & I1).
    destruct (IH s1 O1) as (rs2 & s2 & E2 & N2 & O2 & R2 & I2).
    exists (rs1 ++ rs2), s2. simpl. rewrite E1, E2.
    repeat split; try congruence.
    intros r Hr. apply in_app_iff in Hr as [Hr|Hr]; auto.
Qed.

Lemma late_operations_close_nothing_witness :
  let c := mkCloser 1 (Some (Base (errorString "never reported"))) in
  let sc := mkScheduling (fun _ => caseNext) [] in
  let s := shutdown.mkState (LifoClosure (mkLifo [])) true 1 [] in
  exists rs s',
    operate_all [opAppend c; opClose (shutdown.CallClose sc);
                 opSetPackageClosure (FifoClosure (mkFifo [c]));
                 opClose (shutdown.CallCloseContext Background sc)] s
    = Some (rs, s')
    /\ (forall r, In r rs -> r = None)
    /\ shutdown.once s' = true
    /\ shutdown.runs s' = shutdown.runs s
    /\ shutdown.issued s' = shutdown.issued s.
Proof.
  intros c sc s.
  apply (late_operations_close_nothing
           [opAppend c; opClose (shutdown.CallClose sc);
            opSetPackageClosure (FifoClosure (mkFifo [c]));
            opClose (shutdown.CallCloseContext Background sc)] s).
  reflexivity.
Defined.

(** X10.  [SetPackageClosure] discards what was registered before it:
    the package is then as if those registrations had never been
    made, and what is appended afterwards comes behind the entries of
    the installed strategy. *)
Theorem SetPackageClosure_discards_registrations (xs ys : list Closer) (c : Closure)
    (s : shutdown.state) :
  appends ys (shutdown.SetPackageClosure c (appends xs s))
  = appends ys (shutdown.SetPackageClosure c s)
  /\ entries (shutdown.pkgClosure
                (appends ys (shutdown.SetPackageClosure c (appends xs s))))
     = entries c ++ ys.
Proof.
  destruct (appends_frame xs s) as (Ho & Hr & Hi & _).
  assert (E : shutdown.SetPackageClosure c (appends xs s)
              = shutdown.SetPackageClosure c s).
  { unfold shutdown.SetPackageClosure. now rewrite Ho, Hr, Hi. }
  rewrite E. split; [reflexivity|].
  destruct (appends_frame ys (shutdown.SetPackageClosure c s)) as (_ & _ & _ & ->).
  reflexivity.
Qed.

(** ** Attaching strategies to contexts *)

(** X11.  Attaching a nil [Closure] hides any association of the
    parent: a lookup from the returned context, or from a context
    derived from it without a further attach, finds nothing. *)
Theorem nil_closure_masks_association (h : context.heap) (ctx : nat) :
  ClosureFromContext (fst (ClosureToContext h ctx None))
                     (snd (ClosureToContext h ctx None)) = (None, false)
  /\ (forall h2 d,
       context.wf h2 ->
       (exists ext, h2 = fst (ClosureToContext h ctx None) ++ ext) ->
       context.descends_plain h2 (snd (ClosureToContext h ctx None)) d ->
       ClosureFromContext h2 d = (None, false)).
Proof.
  split.
  - unfold ClosureFromContext, ClosureToContext, context.WithValue, context.alloc.
    cbn [fst snd].
    pose proof (Value_attached h ctx context.nilAny []) as E.
    rewrite app_nil_r in E. now rewrite E.
  - intros h2 d Hwf [ext ->] Hd. unfold ClosureFromContext.
    rewrite (Value_descends_plain _ _ _ Hwf Hd).
    unfold ClosureToContext, context.WithValue, context.alloc. cbn [fst snd].
    now rewrite Value_attached.
Qed.

Lemma nil_closure_masks_association_witness :
  let h := [context.backgroundCtx;
            context.valueCtx 0 context.ctxKey (context.closureAny 7)] in
  ClosureFromContext h 1 = (Some 7, true)
  /\ ClosureFromContext (fst (ClosureToContext h 1 None) ++ [context.cancelCtx 2]) 3
     = (None, false).
Proof.
  intros h. split; [reflexivity|].
  apply (proj2 (nil_closure_masks_association h 1)).
  - apply wfb_wf. reflexivity.
  - now exists [context.cancelCtx 2].
  - eapply context.plain_cancel; [reflexivity | apply context.plain_self].
Defined.

(** X12.  [WithContext] nests: after a [Lifo] was attached to [ctx]
    and a [Group] to the context that gave, a lookup from the inner
    context finds the [Group], a lookup from the outer one still finds
    the [Lifo], and a lookup from [ctx] returns what it returned
    before. *)
Theorem WithContext_nests (h : context.heap) (ctx l g : nat) :
  context.wf h -> ctx < List.length h ->
  let outer := Lifo_WithContext l h ctx in
  let inner := Group_WithContext g (fst outer) (snd outer) in
  ClosureFromContext (fst inner) (snd inner) = (Some g, true)
  /\ ClosureFromContext (fst inner) (snd outer) = (Some l, true)
  /\ ClosureFromContext (fst inner) ctx = ClosureFromContext h ctx.
Proof.
  intros Hwf Hctx outer inner.
  unfold inner, outer, Group_WithContext, Lifo_WithContext, ClosureToContext,
    context.WithValue, context.alloc. cbn [fst snd].
  unfold ClosureFromContext.
  assert (W1 : context.wf (h ++ [context.valueCtx ctx context.ctxKey (context.closureAny l)])).
  { apply wf_alloc; [assumption|]. simpl. intros q Hq. injection Hq as <-. exact Hctx. }
  split; [|split].
  - pose proof (Value_attached
                  (h ++ [context.valueCtx ctx context.ctxKey (context.closureAny l)])
                  (List.length h) (context.closureAny g) []) as E.
    rewrite app_nil_r in E. now rewrite E.
  - now rewrite Value_attached.
  - unfold context.Value. rewrite !value_alloc; try assumption; try reflexivity.
    rewrite length_app. simpl. lia.
Qed.

Lemma WithContext_nests_witness :
  let h := [context.backgroundCtx] in
  let outer := Lifo_WithContext 11 h 0 in
  let inner := Group_WithContext 22 (fst outer) (snd outer) in
  ClosureFromContext (fst inner) (snd inner) = (Some 22, true)
  /\ ClosureFromContext (fst inner) (snd outer) = (Some 11, true)
  /\ ClosureFromContext (fst inner) 0 = ClosureFromContext h 0.
Proof.
  intros h.
  apply (WithContext_nests h 0 11 22).
  - apply wfb_wf. reflexivity.
  - simpl. lia.
Defined.

(** ** Closing on a signal *)


(** X14.  [CloseOnSignalContext] closes with the context it waited
    on.  When the wait ended because that context was done, the close
    runs under a context that has already fired: with the closers
    [cs ++ [c]] registered on the package as loaded, and the first
    select of the walk taking the [Done] case, only the close of [c]
    is spawned, the guard fires, and the call returns the error of the
    context as last constituent; the message logged is the text of
    that error. *)
Theorem CloseOnSignalContext_after_cancellation (ctx : Context) (e : base_error)
    (logger : Logger) (sig : list Signal) (sc : scheduling)
    (cs : list Closer) (c : Closer) (p : progress) :
  ctx = Cancellable e \/ ctx = Fired e ->
  races sc (List.length cs) = caseDone p ->
  exists r s',
    CloseOnSignalContext ctx logger sig contextDone sc
      (appends (cs ++ [c]) shutdown.start)
    = (logger ++ [("Received signal: " ++ base_Error e)%string], Some (r, s'))
    /\ Errors r = Errors (aggregate (stored p c) None) ++ [e]
    /\ shutdown.issued s' = [List.length cs]
    /\ shutdown.once s' = true.
Proof.
  intros Hctx Hp.
  assert (A : after_wait ctx contextDone = Fired e) by (destruct Hctx; now subst).
  assert (M : Error (sigCtx_Err ctx contextDone) = base_Error e)
    by (destruct Hctx; now subst).
  destruct (appends_frame (cs ++ [c]) shutdown.start) as (Ho & Hr & Hi & _).
  pose proof (appends_Lifo (cs ++ [c]) shutdown.start (mkLifo []) eq_refl) as Hc.
  cbn [stack app] in Hc.
  pose proof (Lifo_cancelled_at (Fired e) (races sc) cs [] c p) as C.
  destruct C as (D & _ & _ & e' & He & HE).
  { intros i Hlt. rewrite length_app in Hlt. simpl in Hlt. lia. }
  { exact Hp. }
  injection He as <-.
  unfold CloseOnSignalContext, WaitForSignalsContext, Msgf_received.
  rewrite A, M. unfold shutdown.CloseContext.
  rewrite Ho, Hi, Hc. cbn [shutdown.start shutdown.once shutdown.issued].
  cbn [Closure_CloseContext].
  destruct (Lifo.CloseContext (mkLifo (cs ++ [c])) (Fired e) (races sc)) as [r w].
  cbn [fst snd] in D, HE.
  eexists _, _. split; [reflexivity|].
  cbn [shutdown.issued shutdown.once app]. now repeat split.
Qed.

Lemma CloseOnSignalContext_after_cancellation_witness :
  let a := mkCloser 1 (Some (Base (errorString "a"))) in
  let b := mkCloser 2 (Some (Base (errorString "b"))) in
  let sc := mkScheduling (fun _ => caseDone Recorded) [] in
  exists r s',
    CloseOnSignalContext (Cancellable DeadlineExceeded) [] ["interrupt"] contextDone sc
      (appends ([a] ++ [b]) shutdown.start)
    = ([] ++ [("Received signal: " ++ base_Error DeadlineExceeded)%string], Some (r, s'))
    /\ Errors r = Errors (aggregate (stored Recorded b) None) ++ [DeadlineExceeded]
    /\ shutdown.issued s' = [1]
    /\ shutdown.once s' = true.
Proof.
  intros a b sc.
  apply (CloseOnSignalContext_after_cancellation (Cancellable DeadlineExceeded)
           DeadlineExceeded [] ["interrupt"] sc [a] b Recorded).
  - left. reflexivity.
  - reflexivity.
Defined.

(** ** What is left running *)

Section InFlight.

Variables (ctx : Context) (sched : schedule).

(** Along a pass the closes called are the closes spawned, but
    possibly the last one. *)
Lemma walk_entries_in_flight (es : list (nat * Closer)) (w : walk) :
  exists d,
    dispatched (snd (walk_entries ctx sched es w)) = dispatched w ++ d
    /\ (invoked (snd (walk_entries ctx sched es w)) = invoked w ++ d
        \/ exists d' k, d = d' ++ [k]
                        /\ invoked (snd (walk_entries ctx sched es w)) = invoked w ++ d').
Proof.
  revert w. induction es as [|[i c] es IH]; intros w.
  - exists []. simpl. rewrite !app_nil_r. auto.
  - simpl. unfold iteration. destruct (select ctx (sched i)) as [|p].
    + destruct (IH (finish i c (spawn i w))) as (d & Hd & Hi).
      exists (i :: d). cbn [finish spawn dispatched invoked] in Hd, Hi.
      rewrite <- !app_assoc in Hd, Hi. split; [exact Hd|].
      destruct Hi as [Hi|(d' & k & -> & Hi)].
      * left. exact Hi.
      * right. exists (i :: d'), k. split; [reflexivity|].
        rewrite <- app_assoc in Hi. exact Hi.
    + exists [i]. cbn [snd]. destruct p; cbn [partial finish spawn dispatched invoked];
        (split; [reflexivity|]); auto.
      right. exists [], i. rewrite app_nil_r. auto.
Qed.

Lemma walk_entries_in_flight0 (es : list (nat * Closer)) :
  invoked (snd (walk_entries ctx sched es walk0))
  = dispatched (snd (walk_entries ctx sched es walk0))
  \/ exists k, dispatched (snd (walk_entries ctx sched es walk0))
               = invoked (snd (walk_entries ctx sched es walk0)) ++ [k].
Proof.
  destruct (walk_entries_in_flight es walk0) as (d & Hd & [Hi|(d' & k & -> & Hi)]);
    rewrite Hd, Hi.
  - now left.
  - right. now exists k.
Qed.

End InFlight.

(** X15.  When [CloseContext] of a [Fifo] or a [Lifo] returns,
    whatever the context and the scheduler, every close it spawned has
    been called, except possibly the one spawned last: at most one
    goroutine is left that has not started its close. *)
Theorem at_most_one_close_not_started (cs : list Closer) (ctx : Context)
    (sched : schedule) :
  (invoked (snd (Fifo.CloseContext (mkFifo cs) ctx sched))
   = dispatched (snd (Fifo.CloseContext (mkFifo cs) ctx sched))
   \/ exists k, dispatched (snd (Fifo.CloseContext (mkFifo cs) ctx sched))
                = invoked (snd (Fifo.CloseContext (mkFifo cs) ctx sched)) ++ [k])
  /\ (invoked (snd (Lifo.CloseContext (mkLifo cs) ctx sched))
      = dispatched (snd (Lifo.CloseContext (mkLifo cs) ctx sched))
      \/ exists k, dispatched (snd (Lifo.CloseContext (mkLifo cs) ctx sched))
                   = invoked (snd (Lifo.CloseContext (mkLifo cs) ctx sched)) ++ [k]).
Proof.
  split.
  - rewrite Fifo_CloseContext_entries. apply walk_entries_in_flight0.
  - rewrite Lifo_CloseContext_entries. apply walk_entries_in_flight0.
Qed.

(** X16.  At every moment of a group close, whatever the scheduler
    did so far, a goroutine was spawned for every registration, no
    unit has finished twice, the units that finished are
    registrations, and the shared slice holds exactly their failures,
    in the order in which they finished. *)
Theorem Group_never_closes_twice (g : Group) (ctx : Context)
    (evs : list Group.event) (s : Group.state) :
  Group.run g ctx evs (Group.init g ctx) = Some s ->
  Group.spawned s = seq 0 (List.length (closers g))
  /\ NoDup (Group.finished s)
  /\ (forall i, In i (Group.finished s) -> i < List.length (closers g))
  /\ Group.errs s = flat_map (outcome g) (Group.finished s)
  /\ List.length (Group.errs s) <= List.length (Group.finished s).
Proof.
  intros H.
  destruct (run_inv g ctx evs _ s (init_inv g ctx) H) as (Hsp & Hnd & Hlt & Herrs & _).
  repeat split; try assumption.
  rewrite Herrs. clear. induction (Group.finished s) as [|i l IH]; [reflexivity|].
  simpl. rewrite length_app.
  assert (List.length (outcome g i) <= 1).
  { unfold outcome, Group.record. destruct (nth_error (closers g) i) as [c|]; [|simpl; lia].
    destruct (Close c); simpl; lia. }
  lia.
Qed.

Lemma Group_never_closes_twice_witness :
  let g := mkGroup [mkCloser 1 (Some (Base (errorString "a"))); mkCloser 2 None] in
  let s := Group.mkState [0; 1] [1; 0] [Some (Base (errorString "a"))] true [1] in
  Group.spawned s = seq 0 (List.length (closers g))
  /\ NoDup (Group.finished s)
  /\ (forall i, In i (Group.finished s) -> i < List.length (closers g))
  /\ Group.errs s = flat_map (outcome g) (Group.finished s)
  /\ List.length (Group.errs s) <= List.length (Group.finished s).
Proof.
  intros g s.
  apply (Group_never_closes_twice g (Cancellable Canceled)
           [Group.Finish 1; Group.Resolve 1; Group.Fire; Group.Finish 0] s).
  reflexivity.
Defined.
